(** * Tic-tac-toe front end: a shallow embedding of [App.js]

    The development follows [src/tic_tac_toe_frontend/src/App.js]:
    - [calculateWinner] (lines 23-41), the scan of the eight lines;
    - the values every render derives from the board
      ([winner], [line], [isDraw], [currentPlayer], [gameOver], lines 248-259);
    - the three handlers [handlePlay], [handleReset] and [toggleTheme];
    - the score effect with its [firstConclusionLogged] ref, its 200 ms
      timeout and its cleanup (lines 275-290);
    - the hook [useLocalStorage] (lines 188-207).

    JavaScript data is modelled as the code uses it.  A cell of the board
    holds [null], the string "X" or the string "O"; a read past the end of
    the array (or of a hole left by a write past the end) gives
    [undefined].  The score counters are JavaScript numbers that start at
    0 and only ever grow by 1; they are modelled as naturals, which is
    exact below 2^53. *)

From stdpp Require Import base list strings pretty gmap.

(** ** Board cells *)

Inductive Player := X | O.

(** The values a cell read can give: [Empty] is [null], [Undefined] is
    what [squares[i]] gives when [i] is not an index of the array. *)
Inductive Cell :=
| Empty
| Undefined
| Mark (p : Player).

#[global] Instance Player_eq_dec : EqDecision Player.
Proof. solve_decision. Defined.

#[global] Instance Cell_eq_dec : EqDecision Cell.
Proof. solve_decision. Defined.

(** JavaScript truthiness: [null] and [undefined] are falsy, the
    non-empty strings "X" and "O" are truthy. *)
Definition truthy (c : Cell) : bool :=
  match c with
  | Mark _ => true
  | Empty | Undefined => false
  end.

(** [a === b] on cell values. *)
Definition strict_eq (a b : Cell) : bool := bool_decide (a = b).

(** [squares[i]] *)
Definition js_get (squares : list Cell) (i : nat) : Cell :=
  default Undefined (squares !! i).

(** [next[i] = v]: inside the array the cell is replaced; past the end
    the array grows, the cells in between being holes that read as
    [undefined]. *)
Definition js_set (squares : list Cell) (i : nat) (v : Cell) : list Cell :=
  if decide (i < length squares) then <[i := v]> squares
  else squares ++ replicate (i - length squares) Undefined ++ [v].

(** [Array(9).fill(null)] *)
Definition emptyBoard : list Cell := replicate 9 Empty.

(** ** calculateWinner *)

Definition Line : Type := nat * nat * nat.

Definition lines : list Line :=
  [ (0, 1, 2); (3, 4, 5); (6, 7, 8);
    (0, 3, 6); (1, 4, 7); (2, 5, 8);
    (0, 4, 8); (2, 4, 6) ].

(** The object [{ winner, line }] the function returns; [winner] is a
    cell value ([null] when nobody has won) and [line] is [null] or the
    triple. *)
Record WinnerInfo := { winner : Cell; line : option Line }.

(** The test of the [if] in the loop body. *)
Definition completed (squares : list Cell) (l : Line) : bool :=
  let '(a, b, c) := l in
  truthy (js_get squares a)
  && strict_eq (js_get squares a) (js_get squares b)
  && strict_eq (js_get squares a) (js_get squares c).

(** The [for ... of] loop over the remaining lines, with its early
    [return]. *)
Fixpoint scanLines (squares : list Cell) (ls : list Line) : WinnerInfo :=
  match ls with
  | [] => {| winner := Empty; line := None |}
  | l :: rest =>
      if completed squares l
      then {| winner := js_get squares (l.1.1); line := Some l |}
      else scanLines squares rest
  end.

Definition calculateWinner (squares : list Cell) : WinnerInfo :=
  scanLines squares lines.

(** ** Values derived at every render *)

(** [squares.every((s) => s !== null)]; a hole is skipped by [every] and
    [undefined !== null] holds, so both readings of a hole agree. *)
Definition everyNonNull (squares : list Cell) : bool :=
  forallb (fun s => negb (strict_eq s Empty)) squares.

Definition isDraw (squares : list Cell) : bool :=
  negb (truthy (winner (calculateWinner squares))) && everyNonNull squares.

Definition gameOver (squares : list Cell) : bool :=
  truthy (winner (calculateWinner squares)) || isDraw squares.

(** The spec's [GameResult], read off the three derived values. *)
Inductive GameResult :=
| InProgress
| Win (p : Player) (l : Line)
| Draw.

Definition evaluate (squares : list Cell) : GameResult :=
  match calculateWinner squares with
  | {| winner := Mark p; line := Some l |} => Win p l
  | _ => if isDraw squares then Draw else InProgress
  end.

(** ** useLocalStorage

    [window.localStorage] and [JSON] belong to the browser, not to the
    repository.  The storage is modelled as a finite map of texts that
    may refuse reads or writes (private mode, quota); [JSON.parse] and
    [JSON.stringify] are taken as parameters that either return or
    throw. *)

(** The outcome of a call that may throw. *)
Inductive Completion (A : Type) :=
| Normal (a : A)
| Throw.
Arguments Normal {A} a.
Arguments Throw {A}.

Definition bindC {A B} (c : Completion A) (k : A -> Completion B) : Completion B :=
  match c with
  | Normal a => k a
  | Throw => Throw
  end.

(** [try { return c } catch { return h }] *)
Definition tryCatch {A} (c : Completion A) (h : A) : A :=
  match c with
  | Normal a => a
  | Throw => h
  end.

Notation "'let*' x ':=' c 'in' k" := (bindC c (fun x => k))
  (at level 10, x name, c at level 100, k at level 200).

Record Storage := {
  items : gmap string string;
  readDenied : bool;
  writeDenied : bool;
}.

(** [localStorage.getItem(key)]: [null] (here [None]) for an absent key. *)
Definition getItem (st : Storage) (key : string) : Completion (option string) :=
  if readDenied st then Throw else Normal (items st !! key).

(** [localStorage.setItem(key, text)] *)
Definition setItem (st : Storage) (key text : string) : Completion Storage :=
  if writeDenied st then Throw
  else Normal {| items := <[key := text]> (items st);
                 readDenied := readDenied st;
                 writeDenied := writeDenied st |}.

Section UseLocalStorage.
Context {V : Type}.
Variable JSON_parse : string -> Completion V.
Variable JSON_stringify : V -> Completion string.

(** The initialiser passed to [useState]: [ls ? JSON.parse(ls) :
    initialValue] inside [try], [initialValue] in [catch].  A text is
    falsy exactly when it is [null] or the empty string. *)
Definition useLocalStorage_init (st : Storage) (key : string) (initialValue : V) : V :=
  tryCatch
    (let* ls := getItem st key in
     match ls with
     | None => Normal initialValue
     | Some EmptyString => Normal initialValue
     | Some text => JSON_parse text
     end)
    initialValue.

(** The body of the persistence effect: a failing write leaves the
    storage as it was and nothing is rethrown. *)
Definition useLocalStorage_effect (st : Storage) (key : string) (value : V) : Storage :=
  tryCatch (let* text := JSON_stringify value in setItem st key text) st.

(** The hook's state together with the storage it writes to. *)
Record Hook := { hk_value : V; hk_storage : Storage }.

(** First render: the state is initialised, then the effect runs. *)
Definition useLocalStorage (st : Storage) (key : string) (initialValue : V) : Hook :=
  let v := useLocalStorage_init st key initialValue in
  {| hk_value := v; hk_storage := useLocalStorage_effect st key v |}.

(** [setValue(v)] followed by the render it causes and that render's
    effect. *)
Definition setValue (key : string) (v : V) (h : Hook) : Hook :=
  {| hk_value := v; hk_storage := useLocalStorage_effect (hk_storage h) key v |}.

End UseLocalStorage.

(** ** The App component *)

Record Scores := { score_X : nat; score_O : nat; score_draws : nat }.

(** The initial value given to [useLocalStorage("ttt-scores", ...)]. *)
Definition zeroScores : Scores := {| score_X := 0; score_O := 0; score_draws := 0 |}.

(** The dependency array [gameOver, winner, isDraw] of the score effect
    ([setScores] never changes). *)
Definition Deps : Type := bool * Cell * bool.

Record App := {
  squares : list Cell;
  xIsNext : bool;
  scores : Scores;
  theme : string;
  (** [firstConclusionLogged.current] *)
  firstConclusionLogged : bool;
  (** the timeout set by the score effect is still to fire *)
  pendingTimeout : bool;
  (** the last run of the score effect returned a cleanup function *)
  effectCleanup : bool;
  (** the dependencies the score effect last ran with; [None] before the
      first render is committed *)
  effectDeps : option Deps;
}.

Definition currentPlayer (s : App) : Cell :=
  if xIsNext s then Mark X else Mark O.

Definition handlePlay (i : nat) (s : App) : App :=
  if gameOver (squares s) || truthy (js_get (squares s) i) then s
  else {| squares := js_set (squares s) i (currentPlayer s);
          xIsNext := negb (xIsNext s);
          scores := scores s;
          theme := theme s;
          firstConclusionLogged := firstConclusionLogged s;
          pendingTimeout := pendingTimeout s;
          effectCleanup := effectCleanup s;
          effectDeps := effectDeps s |}.

Definition handleReset (s : App) : App :=
  {| squares := emptyBoard;
     xIsNext := true;
     scores := scores s;
     theme := theme s;
     firstConclusionLogged := firstConclusionLogged s;
     pendingTimeout := pendingTimeout s;
     effectCleanup := effectCleanup s;
     effectDeps := effectDeps s |}.

(** The updater given to [setTheme]. *)
Definition toggle (t : string) : string :=
  if decide (t = "light") then "dark" else "light".

Definition toggleTheme (s : App) : App :=
  {| squares := squares s;
     xIsNext := xIsNext s;
     scores := scores s;
     theme := toggle (theme s);
     firstConclusionLogged := firstConclusionLogged s;
     pendingTimeout := pendingTimeout s;
     effectCleanup := effectCleanup s;
     effectDeps := effectDeps s |}.

(** The updater given to [setScores], with the [winner] and [isDraw] of
    the render that created it.  The sum [prev.X + 1] is the sum of
    naturals here; it is the sum of JavaScript numbers as long as the
    counter is below 2^53. *)
Definition recordResult (w : Cell) (draw : bool) (prev : Scores) : Scores :=
  if strict_eq w (Mark X) then
    {| score_X := score_X prev + 1; score_O := score_O prev; score_draws := score_draws prev |}
  else if strict_eq w (Mark O) then
    {| score_X := score_X prev; score_O := score_O prev + 1; score_draws := score_draws prev |}
  else if draw then
    {| score_X := score_X prev; score_O := score_O prev; score_draws := score_draws prev + 1 |}
  else prev.

Definition currentDeps (s : App) : Deps :=
  (gameOver (squares s), winner (calculateWinner (squares s)), isDraw (squares s)).

(** The body of the score effect.  On the guarded path nothing is
    returned, so no cleanup is registered; otherwise the flag is set, the
    score is updated, the timeout is started and the cleanup that clears
    it is returned. *)
Definition scoreEffect (s : App) : App :=
  if negb (gameOver (squares s)) || firstConclusionLogged s then
    {| squares := squares s; xIsNext := xIsNext s; scores := scores s; theme := theme s;
       firstConclusionLogged := firstConclusionLogged s;
       pendingTimeout := pendingTimeout s;
       effectCleanup := false;
       effectDeps := effectDeps s |}
  else
    {| squares := squares s; xIsNext := xIsNext s;
       scores := recordResult (winner (calculateWinner (squares s))) (isDraw (squares s)) (scores s);
       theme := theme s;
       firstConclusionLogged := true;
       pendingTimeout := true;
       effectCleanup := true;
       effectDeps := effectDeps s |}.

(** The cleanup [() => clearTimeout(t)] of the previous run, when there
    is one. *)
Definition runCleanup (s : App) : App :=
  {| squares := squares s; xIsNext := xIsNext s; scores := scores s; theme := theme s;
     firstConclusionLogged := firstConclusionLogged s;
     pendingTimeout := if effectCleanup s then false else pendingTimeout s;
     effectCleanup := false;
     effectDeps := effectDeps s |}.

(** React remembers the dependencies of the render whose effect it
    runs. *)
Definition rememberDeps (d : Deps) (s : App) : App :=
  {| squares := squares s; xIsNext := xIsNext s; scores := scores s; theme := theme s;
     firstConclusionLogged := firstConclusionLogged s;
     pendingTimeout := pendingTimeout s;
     effectCleanup := effectCleanup s;
     effectDeps := Some d |}.

(** What React does with the score effect once a render is committed:
    nothing when the dependencies are those of the last run, otherwise
    the previous cleanup and then the effect.  The render caused by
    [setScores] leaves the dependencies as they are, so one pass is
    all there is. *)
Definition commit (s : App) : App :=
  if decide (effectDeps s = Some (currentDeps s)) then s
  else rememberDeps (currentDeps s) (scoreEffect (runCleanup s)).

(** The callback of [setTimeout] runs, 200 ms after it was set, unless
    it was cleared. *)
Definition timeoutFires (s : App) : App :=
  if pendingTimeout s then
    {| squares := squares s; xIsNext := xIsNext s; scores := scores s; theme := theme s;
       firstConclusionLogged := false;
       pendingTimeout := false;
       effectCleanup := effectCleanup s;
       effectDeps := effectDeps s |}
  else s.

(** Everything that can happen to a mounted App: the three intents, the
    timeout, and a render that changes no state (the concluded state is
    read again). *)
Inductive Event :=
| Play (i : nat)
| Reset
| ToggleTheme
| Timeout
| Render.

Definition dispatch (s : App) (e : Event) : App :=
  match e with
  | Play i => commit (handlePlay i s)
  | Reset => commit (handleReset s)
  | ToggleTheme => commit (toggleTheme s)
  | Timeout => timeoutFires s
  | Render => commit s
  end.

Definition run (s : App) (es : list Event) : App := foldl dispatch s es.

(** The first render, from the values the two hooks start with. *)
Definition mount (scores0 : Scores) (theme0 : string) : App :=
  commit {| squares := emptyBoard; xIsNext := true;
            scores := scores0; theme := theme0;
            firstConclusionLogged := false;
            pendingTimeout := false;
            effectCleanup := false;
            effectDeps := None |}.

(** ** Values read from the storage

    [JSON.parse] returns any JavaScript value, and the hook uses what it
    returns without looking at its shape.  [JsValue] is what a stored
    text can parse to; numbers appear when they are integers, and no
    arithmetic is done on them here.  The fields of an object are listed
    in order, each name once. *)

#[local] Set Warnings "-register-all".














(** X takes the first row while O plays 3 and 4. *)
Definition xWinMoves : list Event := [Play 0; Play 3; Play 1; Play 4; Play 2].

(** ** The Square component *)

(** The callbacks a square received as props and may call. *)
Inductive SquareCall :=
| OnKeyNav (index : nat) (key : string)
| OnClick (index : nat).

(** What [handleKeyDown] did with the event: whether it called
    [e.preventDefault()] and which callback it called, if any. *)
Record KeyDown := { preventDefault : bool; called : option SquareCall }.

Definition arrowKeys : list string :=
  ["ArrowUp"; "ArrowDown"; "ArrowLeft"; "ArrowRight"].

Definition handleKeyDown (index : nat) (disabled : bool) (key : string) : KeyDown :=
  if bool_decide (key ∈ arrowKeys) then
    {| preventDefault := true; called := Some (OnKeyNav index key) |}
  else if bool_decide (key = "Enter") || bool_decide (key = " ") then
    {| preventDefault := true;
       called := if negb disabled then Some (OnClick index) else None |}
  else {| preventDefault := false; called := None |}.

(** A mark inside a template literal. *)
Definition playerString (p : Player) : string :=
  match p with X => "X" | O => "O" end.

(** [`${value}`] for any cell value. *)
Definition cellString (value : Cell) : string :=
  match value with
  | Mark p => playerString p
  | Empty => "null"
  | Undefined => "undefined"
  end.

(** [value ? `, ${value}` : ", empty"] *)
Definition valText (value : Cell) : string :=
  if truthy value then ", " +:+ cellString value else ", empty".

(** The label computed by [useMemo]; the numbers are written in
    decimal. *)
Definition ariaLabel (index : nat) (value : Cell) : string :=
  let row := index / 3 + 1 in
  let col := index mod 3 + 1 in
  "Cell " +:+ pretty row +:+ "," +:+ pretty col +:+ valText value.

(** ** The Board component *)

(** [handleClick]: the index handed on to [onPlay], if any. *)
Definition handleClick (squares : list Cell) (gameOver : bool) (i : nat) : option nat :=
  if truthy (js_get squares i) || gameOver then None else Some i.

(** [Array.isArray(winningLine) && winningLine.includes(i)] *)
Definition isWinningIndex (winningLine : option Line) (i : nat) : bool :=
  match winningLine with
  | None => false
  | Some (a, b, c) => bool_decide (i ∈ [a; b; c])
  end.

(** The [disabled] prop of the square at [idx]:
    [Boolean(sq) || gameOver]. *)
Definition squareDisabled (squares : list Cell) (gameOver : bool) (idx : nat) : bool :=
  truthy (js_get squares idx) || gameOver.

(** The index [handleKeyNav] computes, the four [if]s being run one
    after the other on [nextRow] and [nextCol]. *)
Definition nextIndex (currentIndex : nat) (key : string) : nat :=
  let row := currentIndex / 3 in
  let col := currentIndex mod 3 in
  let nextRow := row in
  let nextCol := col in
  let nextRow :=
    if decide (key = "ArrowUp") then (if decide (0 < row) then row - 1 else row)
    else nextRow in
  let nextRow :=
    if decide (key = "ArrowDown") then (if decide (row < 2) then row + 1 else row)
    else nextRow in
  let nextCol :=
    if decide (key = "ArrowLeft") then (if decide (0 < col) then col - 1 else col)
    else nextCol in
  let nextCol :=
    if decide (key = "ArrowRight") then (if decide (col < 2) then col + 1 else col)
    else nextCol in
  nextRow * 3 + nextCol.

(** [handleKeyNav]: the button that receives the focus, when
    [btns[nextIndex]] exists; [buttons] is the number of elements
    [querySelectorAll(".ttt-square")] finds, one per rendered square. *)
Definition handleKeyNav (buttons : nat) (currentIndex : nat) (key : string) : option nat :=
  if decide (nextIndex currentIndex key < buttons)
  then Some (nextIndex currentIndex key)
  else None.

(** ** The StatusBar component *)

Definition message (currentPlayer winner : Cell) (isDraw : bool) : string :=
  if truthy winner then "Winner: " +:+ cellString winner
  else if isDraw then "It's a draw!"
  else "Current player: " +:+ cellString currentPlayer.

Definition statusClass (winner : Cell) (isDraw : bool) : string :=
  if truthy winner then "status-won"
  else if isDraw then "status-draw"
  else "status-turn".

(** ** What App renders *)

(** The status line, with the props App passes to [StatusBar]. *)
Definition statusMessage (s : App) : string :=
  message (if xIsNext s then Mark X else Mark O)
    (winner (calculateWinner (squares s))) (isDraw (squares s)).

Definition statusClassOf (s : App) : string :=
  statusClass (winner (calculateWinner (squares s))) (isDraw (squares s)).

(** A click on the square at [i]: [Board.handleClick] with the props
    App passes, then [onPlay], which is [handlePlay]. *)
Definition clickSquare (s : App) (i : nat) : App :=
  match handleClick (squares s) (gameOver (squares s)) i with
  | Some j => dispatch s (Play j)
  | None => s
  end.

(** The squares [squares.map] puts on the page, by their [index] prop
    and in the order of the page.  [map] calls its function for no
    hole, and in this App a cell reads as [undefined] only where the
    array has a hole, so a cell that is [Undefined] has no button. *)
Fixpoint renderedFrom (idx : nat) (squares : list Cell) : list nat :=
  match squares with
  | [] => []
  | c :: rest =>
      if decide (c = Undefined) then renderedFrom (S idx) rest
      else idx :: renderedFrom (S idx) rest
  end.

Definition renderedSquares (squares : list Cell) : list nat :=
  renderedFrom 0 squares.

(** A key pressed on the square at [idx]: the App that results and the
    position, among the buttons of the page, of the button that
    receives the focus, if the focus moves. *)
Definition pressKey (s : App) (idx : nat) (key : string) : App * option nat :=
  match called (handleKeyDown idx
                  (squareDisabled (squares s) (gameOver (squares s)) idx) key) with
  | Some (OnClick i) => (clickSquare s i, None)
  | Some (OnKeyNav i k) =>
      (s, handleKeyNav (length (renderedSquares (squares s))) i k)
  | None => (s, None)
  end.

(** ** Vocabulary of the properties *)

(** A full board without a completed line. *)
Definition drawnBoard : list Cell :=
  [ Mark X; Mark O; Mark X;
    Mark X; Mark O; Mark O;
    Mark O; Mark X; Mark X ].

(** The number of cells that hold the mark of [p]. *)
Fixpoint countMarks (p : Player) (squares : list Cell) : nat :=
  match squares with
  | [] => 0
  | c :: rest => (if decide (c = Mark p) then 1 else 0) + countMarks p rest
  end.

(** The guard of [handlePlay] lets the move through. *)
Definition legalMove (s : App) (i : nat) : Prop :=
  gameOver (squares s) = false ∧ truthy (js_get (squares s) i) = false.

#[global] Instance legalMove_dec s i : Decision (legalMove s i).
Proof. unfold legalMove. apply _. Defined.

(** [Reached n s]: the App reaches [s] from its first render, [n] being
    the number of moves accepted since the board was last fresh. *)
Inductive Reached : nat → App → Prop :=
| Reached_mount sc th : Reached 0 (mount sc th)
| Reached_reset n s : Reached n s → Reached 0 (dispatch s Reset)
| Reached_move n s i :
    Reached n s → legalMove s i → Reached (S n) (dispatch s (Play i))
| Reached_rejected n s i :
    Reached n s → ¬ legalMove s i → Reached n (dispatch s (Play i))
| Reached_toggle n s : Reached n s → Reached n (dispatch s ToggleTheme)
| Reached_timeout n s : Reached n s → Reached n (dispatch s Timeout)
| Reached_render n s : Reached n s → Reached n (dispatch s Render).

(** The invariant of the reachable states. *)
Definition turnInvariant (n : nat) (s : App) : Prop :=
  countMarks X (squares s) + countMarks O (squares s) = n
  ∧ countMarks X (squares s)
    = countMarks O (squares s) + (if xIsNext s then 0 else 1)
  ∧ xIsNext s = Nat.even n.


(** The effect has run with the dependencies of the current render. *)
Definition settled (s : App) : Prop := effectDeps s = Some (currentDeps s).

(** What holds of a game that started with scores [sc] for as long as
    no reset happens: nothing is counted while the game goes on, and a
    concluded game has been counted once. *)
Definition countedOnce (sc : Scores) (s : App) : Prop :=
  settled s
  ∧ (gameOver (squares s) = false →
     scores s = sc ∧ firstConclusionLogged s = false)
  ∧ (gameOver (squares s) = true →
     scores s = recordResult (winner (calculateWinner (squares s)))
                  (isDraw (squares s)) sc).

(** Once the flag is set with no timeout left to clear it, nothing
    clears it any more and the scores stay as they are for ever. *)
Definition stuck (s : App) : Prop :=
  firstConclusionLogged s = true ∧ pendingTimeout s = false.

(** An event the rendered board can produce: a square that is played
    is one of the nine. *)
Definition onBoard (e : Event) : Prop :=
  match e with
  | Play i => i < 9
  | _ => True
  end.

(** The mark of the player who moved last. *)
Definition lastMover (s : App) : Cell :=
  if xIsNext s then Mark O else Mark X.

Definition total (sc : Scores) : nat := score_X sc + score_O sc + score_draws sc.

(** The counters are below 2^53, where adding one to a JavaScript
    number is exact. *)
Definition exactCounters (sc : Scores) : Prop :=
  (Z.of_nat (score_X sc) < 2 ^ 53)%Z
  ∧ (Z.of_nat (score_O sc) < 2 ^ 53)%Z
  ∧ (Z.of_nat (score_draws sc) < 2 ^ 53)%Z.

(** The arrow that points the other way. *)
Definition opposite (key : string) : string :=
  if decide (key = "ArrowUp") then "ArrowDown"
  else if decide (key = "ArrowDown") then "ArrowUp"
  else if decide (key = "ArrowLeft") then "ArrowRight"
  else if decide (key = "ArrowRight") then "ArrowLeft"
  else key.

Ltac unfold_commit :=
  unfold commit, rememberDeps, scoreEffect, runCleanup;
  repeat (case_decide || case_match); simpl.

(** * Properties *)

(** ** The scan *)

Lemma scanLines_none squares ls :
  (∀ l, l ∈ ls → completed squares l = false) →
  scanLines squares ls = {| winner := Empty; line := None |}.
Proof.
  induction ls as [|l rest IH]; intros Hnone; simpl; [done|].
  rewrite (Hnone l) by apply list_elem_of_here.
  apply IH. intros l' Hl'. apply Hnone. by apply list_elem_of_further.
Qed.

(** The scan stops at the first completed line. *)
Lemma scanLines_first squares pre l post :
  (∀ l', l' ∈ pre → completed squares l' = false) →
  completed squares l = true →
  scanLines squares (pre ++ l :: post)
  = {| winner := js_get squares (l.1.1); line := Some l |}.
Proof.
  induction pre as [|p pre IH]; intros Hpre Hl; simpl.
  - by rewrite Hl.
  - rewrite (Hpre p) by apply list_elem_of_here.
    apply IH; [|done]. intros l' Hl'. apply Hpre. by apply list_elem_of_further.
Qed.

(** A list with a completed line splits at its first completed line. *)
Lemma first_completed_split squares ls :
  (∃ l, l ∈ ls ∧ completed squares l = true) →
  ∃ pre l1 post, ls = pre ++ l1 :: post
    ∧ (∀ l', l' ∈ pre → completed squares l' = false)
    ∧ completed squares l1 = true.
Proof.
  induction ls as [|h rest IH]; intros (l & Hin & Hl).
  - by apply elem_of_nil in Hin.
  - destruct (completed squares h) eqn:Hh.
    + exists [], h, rest. split_and!; [done| |done].
      intros l' Hl'. by apply elem_of_nil in Hl'.
    + apply elem_of_cons in Hin as [->|Hin]; [congruence|].
      destruct IH as (pre & l1 & post & -> & Hpre & Hl1); [by exists l|].
      exists (h :: pre), l1, post. split_and!; [done| |done].
      intros l' [->|Hl']%elem_of_cons; [done|by apply Hpre].
Qed.

Lemma completed_truthy squares l :
  completed squares l = true → ∃ p, js_get squares (l.1.1) = Mark p.
Proof.
  destruct l as [[a b] c]; simpl.
  destruct (js_get squares a) as [| |p]; simpl; try discriminate.
  intros _. by exists p.
Qed.

(** What [calculateWinner] can return: nobody, or a player with a line
    of [lines] that is completed by that player. *)
Lemma scanLines_shape squares ls :
  scanLines squares ls = {| winner := Empty; line := None |}
  ∨ ∃ p l, l ∈ ls ∧ completed squares l = true
      ∧ scanLines squares ls = {| winner := Mark p; line := Some l |}.
Proof.
  induction ls as [|h rest IH]; simpl; [by left|].
  destruct (completed squares h) eqn:Hh.
  - right. destruct (completed_truthy _ _ Hh) as [p Hp].
    exists p, h. rewrite Hp. split_and!; [apply list_elem_of_here|done|done].
  - destruct IH as [IH|(p & l & Hin & Hl & IH)]; [by left|].
    right. exists p, l. split_and!; [by apply list_elem_of_further|done|done].
Qed.

Lemma gameOver_evaluate squares :
  gameOver squares = false ↔ evaluate squares = InProgress.
Proof.
  unfold gameOver, evaluate, isDraw, calculateWinner.
  destruct (scanLines_shape squares lines) as [->|(p & l & _ & _ & ->)]; simpl.
  - destruct (everyNonNull squares); simpl; split; congruence.
  - split; discriminate.
Qed.

(** C3. When some line of the scan order is completed by a symbol and no
    earlier line is completed by another symbol, [calculateWinner]
    returns that symbol together with the first completed line of the
    scan order, and the derived result is the corresponding [Win]. *)
Theorem C3_first_completed_line_wins
    (squares : list Cell) (j : nat) (L : Line) (sym : Player) :
  lines !! j = Some L →
  completed squares L = true →
  js_get squares (L.1.1) = Mark sym →
  (∀ i L' sym', i < j → lines !! i = Some L' →
     completed squares L' = true → js_get squares (L'.1.1) = Mark sym' →
     sym' = sym) →
  ∃ k L1,
    k ≤ j ∧ lines !! k = Some L1
    ∧ completed squares L1 = true
    ∧ js_get squares (L1.1.1) = Mark sym
    ∧ (∀ i L', i < k → lines !! i = Some L' → completed squares L' = false)
    ∧ calculateWinner squares = {| winner := Mark sym; line := Some L1 |}
    ∧ evaluate squares = Win sym L1.
Proof.
  intros Hj HL Hsym Hearlier.
  destruct (first_completed_split squares lines) as (pre & l1 & post & Hsplit & Hpre & Hl1).
  { exists L. split; [|done]. by eapply list_elem_of_lookup_2. }
  assert (Hk : lines !! length pre = Some l1).
  { rewrite Hsplit. by rewrite list_lookup_middle. }
  assert (Hbefore : ∀ i L', i < length pre → lines !! i = Some L' →
                            completed squares L' = false).
  { intros i L' Hi HiL. apply Hpre. rewrite Hsplit in HiL.
    rewrite lookup_app_l in HiL by done. by eapply list_elem_of_lookup_2. }
  assert (Hle : length pre ≤ j).
  { destruct (decide (length pre ≤ j)) as [|Hn]; [done|].
    rewrite (Hbefore j L) in HL by (done || lia). discriminate. }
  destruct (completed_truthy _ _ Hl1) as [p Hp].
  assert (p = sym) as ->.
  { destruct (decide (length pre = j)) as [Heq|Hne].
    - rewrite Heq, Hj in Hk. injection Hk as <-. congruence.
    - eapply (Hearlier (length pre) l1 p); [lia|done..]. }
  assert (Hcw : calculateWinner squares = {| winner := Mark sym; line := Some l1 |}).
  { unfold calculateWinner. rewrite Hsplit at 1.
    rewrite scanLines_first by done. by rewrite Hp. }
  exists (length pre), l1. split_and!; try done.
  unfold evaluate. by rewrite Hcw.
Qed.

(** The first row is completed by X while the first column is not: the
    theorem applies at [j = 0]. *)
Lemma C3_witness :
  ∃ k L1, k ≤ 0 ∧ lines !! k = Some L1
    ∧ completed [Mark X; Mark X; Mark X; Mark O; Mark O; Empty; Empty; Empty; Empty] L1 = true
    ∧ js_get [Mark X; Mark X; Mark X; Mark O; Mark O; Empty; Empty; Empty; Empty] (L1.1.1) = Mark X
    ∧ (∀ i L', i < k → lines !! i = Some L' →
         completed [Mark X; Mark X; Mark X; Mark O; Mark O; Empty; Empty; Empty; Empty] L' = false)
    ∧ calculateWinner [Mark X; Mark X; Mark X; Mark O; Mark O; Empty; Empty; Empty; Empty]
      = {| winner := Mark X; line := Some L1 |}
    ∧ evaluate [Mark X; Mark X; Mark X; Mark O; Mark O; Empty; Empty; Empty; Empty] = Win X L1.
Proof.
  apply (C3_first_completed_line_wins _ 0 (0, 1, 2) X).
  - reflexivity.
  - reflexivity.
  - reflexivity.
  - intros i L' sym' Hi. lia.
Defined.

(** C4. On a board where no line is completed, the derived result is
    [Draw] when no cell is [Empty] and [InProgress] when some cell is. *)
Theorem C4_draw_or_in_progress (squares : list Cell) :
  (∀ l, l ∈ lines → completed squares l = false) →
  (Forall (λ c, c ≠ Empty) squares → evaluate squares = Draw)
  ∧ (Empty ∈ squares → evaluate squares = InProgress).
Proof.
  intros Hnone.
  assert (Hcw : calculateWinner squares = {| winner := Empty; line := None |})
    by (by apply scanLines_none).
  unfold evaluate, isDraw. rewrite Hcw. simpl. split.
  - intros Hfull.
    assert (everyNonNull squares = true) as ->; [|done].
    unfold everyNonNull. apply forallb_forall.
    intros c Hc. rewrite Forall_forall in Hfull.
    unfold strict_eq. apply list_elem_of_In in Hc.
    rewrite bool_decide_eq_false_2; [done|by apply Hfull].
  - intros Hin.
    assert (everyNonNull squares = false) as ->; [|done].
    unfold everyNonNull. apply not_true_is_false. intros Hall.
    rewrite forallb_forall in Hall.
    apply list_elem_of_In in Hin. specialize (Hall _ Hin).
    unfold strict_eq in Hall. by rewrite bool_decide_eq_true_2 in Hall.
Qed.

Lemma C4_witness :
  (Forall (λ c, c ≠ Empty) drawnBoard → evaluate drawnBoard = Draw)
  ∧ (Empty ∈ drawnBoard → evaluate drawnBoard = InProgress).
Proof.
  apply (C4_draw_or_in_progress drawnBoard).
  intros l Hl.
  repeat (apply elem_of_cons in Hl as [->|Hl]; [reflexivity|]).
  by apply elem_of_nil in Hl.
Defined.

Example evaluate_drawnBoard : evaluate drawnBoard = Draw.
Proof. reflexivity. Qed.

Example evaluate_emptyBoard : evaluate emptyBoard = InProgress.
Proof. reflexivity. Qed.

(** ** Array reads and writes *)

Lemma js_get_js_set_eq squares i v : js_get (js_set squares i v) i = v.
Proof.
  unfold js_get, js_set. case_decide as Hi.
  - by rewrite list_lookup_insert_eq.
  - rewrite lookup_app_r by lia.
    rewrite lookup_app_r by (rewrite length_replicate; lia).
    rewrite length_replicate.
    by replace (i - length squares - (i - length squares)) with 0 by lia.
Qed.

Lemma js_get_js_set_ne squares i j v :
  j ≠ i → js_get (js_set squares i v) j = js_get squares j.
Proof.
  intros Hne. unfold js_get, js_set. case_decide as Hi.
  - by rewrite list_lookup_insert_ne.
  - destruct (decide (j < length squares)) as [Hj|Hj].
    + by rewrite lookup_app_l.
    + rewrite lookup_app_r by lia.
      rewrite (lookup_ge_None_2 squares j) by lia. simpl.
      destruct (decide (j < i)) as [Hlt|Hge].
      * rewrite lookup_app_l by (rewrite length_replicate; lia).
        rewrite lookup_replicate_2 by lia. done.
      * rewrite lookup_ge_None_2; [done|].
        rewrite length_app, length_replicate. simpl. lia.
Qed.

(** A cell that reads as [null] lies inside the array. *)
Lemma js_get_Empty_in_range squares i :
  js_get squares i = Empty → i < length squares.
Proof.
  unfold js_get. intros H.
  destruct (squares !! i) eqn:Hl; [by eapply lookup_lt_Some|discriminate].
Qed.

(** ** Counting the marks of a player *)

Lemma countMarks_app p l1 l2 :
  countMarks p (l1 ++ l2) = countMarks p l1 + countMarks p l2.
Proof. induction l1 as [|c l1 IH]; simpl; [done|]. rewrite IH. lia. Qed.

Lemma countMarks_holes p n : countMarks p (replicate n Undefined) = 0.
Proof. induction n as [|n IH]; simpl; [done|]. by rewrite IH. Qed.

Lemma countMarks_insert p q squares i :
  i < length squares →
  truthy (js_get squares i) = false →
  countMarks p (<[i := Mark q]> squares)
  = countMarks p squares + (if decide (p = q) then 1 else 0).
Proof.
  revert i. induction squares as [|c rest IH]; intros i Hi Hfalsy; simpl in Hi; [lia|].
  destruct i as [|i]; simpl.
  - unfold js_get in Hfalsy. simpl in Hfalsy.
    destruct c; simpl in Hfalsy; try discriminate;
      repeat case_decide; simplify_eq; lia.
  - rewrite IH; [lia|lia|done].
Qed.

Lemma countMarks_js_set p q squares i :
  truthy (js_get squares i) = false →
  countMarks p (js_set squares i (Mark q))
  = countMarks p squares + (if decide (p = q) then 1 else 0).
Proof.
  intros Hfalsy. unfold js_set. case_decide as Hi.
  - by apply countMarks_insert.
  - rewrite !countMarks_app, countMarks_holes. simpl.
    repeat case_decide; simplify_eq; lia.
Qed.

Lemma countMarks_emptyBoard p : countMarks p emptyBoard = 0.
Proof. reflexivity. Qed.

(** ** The effect phase leaves the game and the theme alone *)

Lemma commit_squares s : squares (commit s) = squares s.
Proof. by unfold_commit. Qed.

Lemma commit_xIsNext s : xIsNext (commit s) = xIsNext s.
Proof. by unfold_commit. Qed.

Lemma commit_theme s : theme (commit s) = theme s.
Proof. by unfold_commit. Qed.

Lemma timeoutFires_squares s : squares (timeoutFires s) = squares s.
Proof. unfold timeoutFires. by case_match. Qed.

Lemma timeoutFires_xIsNext s : xIsNext (timeoutFires s) = xIsNext s.
Proof. unfold timeoutFires. by case_match. Qed.

(** While the game is going on the effect stays on its guarded path. *)
Lemma commit_scores_in_progress s :
  gameOver (squares s) = false → scores (commit s) = scores s.
Proof.
  intros Hgo. unfold commit, rememberDeps, scoreEffect, runCleanup.
  case_decide; [done|]. simpl. by rewrite Hgo.
Qed.

Lemma commit_flag_in_progress s :
  gameOver (squares s) = false →
  firstConclusionLogged (commit s) = firstConclusionLogged s.
Proof.
  intros Hgo. unfold commit, rememberDeps, scoreEffect, runCleanup.
  case_decide; [done|]. simpl. by rewrite Hgo.
Qed.

(** ** Moves *)

Lemma handlePlay_rejected s i : ¬ legalMove s i → handlePlay i s = s.
Proof.
  unfold legalMove, handlePlay. intros Hn.
  destruct (gameOver (squares s)); [done|].
  destruct (truthy (js_get (squares s) i)); [done|].
  by destruct Hn.
Qed.

Lemma handlePlay_legal s i :
  legalMove s i →
  handlePlay i s
  = {| squares := js_set (squares s) i (currentPlayer s);
       xIsNext := negb (xIsNext s);
       scores := scores s;
       theme := theme s;
       firstConclusionLogged := firstConclusionLogged s;
       pendingTimeout := pendingTimeout s;
       effectCleanup := effectCleanup s;
       effectDeps := effectDeps s |}.
Proof. unfold legalMove, handlePlay. by intros [-> ->]. Qed.

(** C5. [handlePlay] changes nothing, neither the board nor the turn nor
    anything else, when the derived result is not [InProgress] or the
    target cell already holds a mark; it returns normally. *)
Theorem C5_illegal_move_is_noop (s : App) (i : nat) :
  evaluate (squares s) ≠ InProgress ∨ (∃ p, js_get (squares s) i = Mark p) →
  handlePlay i s = s
  ∧ squares (handlePlay i s) = squares s
  ∧ xIsNext (handlePlay i s) = xIsNext s.
Proof.
  intros Hillegal.
  assert (handlePlay i s = s) as ->; [|done].
  apply handlePlay_rejected. intros [Hgo Hcell].
  destruct Hillegal as [Hres|[p Hp]].
  - by apply Hres, gameOver_evaluate.
  - by rewrite Hp in Hcell.
Qed.

(** O tries the centre, which X holds. *)
Lemma C5_witness :
  let s := handlePlay 4 (mount zeroScores "light") in
  handlePlay 4 s = s
  ∧ squares (handlePlay 4 s) = squares s
  ∧ xIsNext (handlePlay 4 s) = xIsNext s.
Proof.
  intros s. apply (C5_illegal_move_is_noop s 4).
  right. exists X. reflexivity.
Defined.

(** A rejected move also leaves a mounted App as it is once the render
    has been committed. *)
Lemma dispatch_rejected s i :
  commit s = s → ¬ legalMove s i → dispatch s (Play i) = s.
Proof. intros Hs Hn. simpl. by rewrite handlePlay_rejected. Qed.

(** C10. A legal move writes the mover's symbol into the cell at the
    given index and flips the turn; every other cell reads as before,
    the board keeps its length, and scores, theme and the score
    effect's bookkeeping are untouched by the handler. *)
Theorem C10_legal_move_frame (s : App) (i : nat) :
  evaluate (squares s) = InProgress →
  js_get (squares s) i = Empty →
  squares (handlePlay i s) = <[i := currentPlayer s]> (squares s)
  ∧ js_get (squares (handlePlay i s)) i = currentPlayer s
  ∧ (∀ j, j ≠ i → js_get (squares (handlePlay i s)) j = js_get (squares s) j)
  ∧ length (squares (handlePlay i s)) = length (squares s)
  ∧ xIsNext (handlePlay i s) = negb (xIsNext s)
  ∧ scores (handlePlay i s) = scores s
  ∧ theme (handlePlay i s) = theme s
  ∧ firstConclusionLogged (handlePlay i s) = firstConclusionLogged s
  ∧ pendingTimeout (handlePlay i s) = pendingTimeout s.
Proof.
  intros Hres Hcell.
  assert (Hlegal : legalMove s i).
  { split; [by apply gameOver_evaluate|by rewrite Hcell]. }
  pose proof (js_get_Empty_in_range _ _ Hcell) as Hi.
  rewrite (handlePlay_legal _ _ Hlegal). simpl.
  assert (Hset : js_set (squares s) i (currentPlayer s)
                 = <[i := currentPlayer s]> (squares s)).
  { unfold js_set. by rewrite decide_True. }
  split_and!; try done.
  - apply js_get_js_set_eq.
  - intros j Hj. by apply js_get_js_set_ne.
  - rewrite Hset. apply length_insert.
Qed.

Lemma C10_witness :
  let s := mount zeroScores "light" in
  squares (handlePlay 4 s) = <[4 := currentPlayer s]> (squares s)
  ∧ js_get (squares (handlePlay 4 s)) 4 = currentPlayer s
  ∧ (∀ j, j ≠ 4 → js_get (squares (handlePlay 4 s)) j = js_get (squares s) j)
  ∧ length (squares (handlePlay 4 s)) = length (squares s)
  ∧ xIsNext (handlePlay 4 s) = negb (xIsNext s)
  ∧ scores (handlePlay 4 s) = scores s
  ∧ theme (handlePlay 4 s) = theme s
  ∧ firstConclusionLogged (handlePlay 4 s) = firstConclusionLogged s
  ∧ pendingTimeout (handlePlay 4 s) = pendingTimeout s.
Proof.
  intros s. apply (C10_legal_move_frame s 4); reflexivity.
Defined.

(** ** Reset and theme *)

Lemma gameOver_emptyBoard : gameOver emptyBoard = false.
Proof. reflexivity. Qed.

(** C7. From any state, a reset (the handler and the effect phase that
    follows it) gives nine [Empty] cells with X to move and leaves the
    scores and the theme as they were. *)
Theorem C7_reset_fresh_board_keeps_scores_and_theme (s : App) :
  squares (handleReset s) = replicate 9 Empty
  ∧ xIsNext (handleReset s) = true
  ∧ scores (handleReset s) = scores s
  ∧ theme (handleReset s) = theme s
  ∧ squares (dispatch s Reset) = replicate 9 Empty
  ∧ length (squares (dispatch s Reset)) = 9
  ∧ currentPlayer (dispatch s Reset) = Mark X
  ∧ scores (dispatch s Reset) = scores s
  ∧ theme (dispatch s Reset) = theme s.
Proof.
  simpl. rewrite commit_squares, commit_theme.
  unfold currentPlayer. rewrite commit_xIsNext.
  rewrite commit_scores_in_progress by apply gameOver_emptyBoard.
  by split_and!.
Qed.

(** C9. [toggle] swaps "light" and "dark", so two toggles give back
    either of them; a mounted App that starts with "light" shows "dark"
    after one [toggleTheme] and "light" after a second. *)
Theorem C9_toggle_swaps_themes :
  toggle "light" = "dark"
  ∧ toggle "dark" = "light"
  ∧ Forall (λ t, toggle (toggle t) = t) ["light"; "dark"]
  ∧ (∀ sc, theme (dispatch (mount sc "light") ToggleTheme) = "dark")
  ∧ (∀ sc, theme (run (mount sc "light") [ToggleTheme; ToggleTheme]) = "light").
Proof.
  split_and!.
  - reflexivity.
  - reflexivity.
  - repeat constructor.
  - intros sc. unfold dispatch. by rewrite commit_theme.
  - intros sc. unfold run, foldl, dispatch. by rewrite !commit_theme.
Qed.

(** ** Turn and counts *)

Lemma turnInvariant_fresh s :
  squares s = emptyBoard → xIsNext s = true → turnInvariant 0 s.
Proof. intros Hsq Hx. unfold turnInvariant. by rewrite Hsq, Hx. Qed.

Lemma turnInvariant_same n s s' :
  squares s' = squares s → xIsNext s' = xIsNext s →
  turnInvariant n s → turnInvariant n s'.
Proof. unfold turnInvariant. by intros -> ->. Qed.

Lemma turnInvariant_move n s i :
  legalMove s i → turnInvariant n s → turnInvariant (S n) (handlePlay i s).
Proof.
  intros Hlegal (Hsum & Hdiff & Hturn).
  rewrite (handlePlay_legal _ _ Hlegal). unfold turnInvariant. simpl.
  destruct Hlegal as [_ Hcell].
  assert (Heven : Nat.even (S n) = negb (Nat.even n)).
  { by rewrite Nat.even_succ, <- Nat.negb_even. }
  unfold currentPlayer. destruct (xIsNext s); simpl in *;
    rewrite !countMarks_js_set by done;
    rewrite Heven, <- Hturn; repeat case_decide; simplify_eq; simpl;
    split_and!; (done || lia).
Qed.

Lemma Reached_turnInvariant n s : Reached n s → turnInvariant n s.
Proof.
  induction 1 as [sc th|n s _ _|n s i _ IH Hlegal|n s i _ IH Hn
                  |n s _ IH|n s _ IH|n s _ IH]; simpl.
  - apply turnInvariant_fresh.
    + unfold mount. by rewrite commit_squares.
    + unfold mount. by rewrite commit_xIsNext.
  - apply turnInvariant_fresh.
    + by rewrite commit_squares.
    + by rewrite commit_xIsNext.
  - eapply turnInvariant_same;
      [apply commit_squares|apply commit_xIsNext|by apply turnInvariant_move].
  - rewrite handlePlay_rejected by done.
    eapply turnInvariant_same; [apply commit_squares|apply commit_xIsNext|done].
  - eapply turnInvariant_same; [apply commit_squares|apply commit_xIsNext|done].
  - eapply turnInvariant_same;
      [apply timeoutFires_squares|apply timeoutFires_xIsNext|done].
  - eapply turnInvariant_same; [apply commit_squares|apply commit_xIsNext|done].
Qed.

(** C6. In a state reached after [n] accepted moves on a fresh board, X
    is to move exactly when [n] is even; the board holds [n] marks, as
    many X as O or one X more; and the mover is O when there are more X
    than O, X otherwise. *)
Theorem C6_turn_alternates_and_follows_counts (n : nat) (s : App) :
  Reached n s →
  (currentPlayer s = Mark X ↔ Nat.even n = true)
  ∧ countMarks X (squares s) + countMarks O (squares s) = n
  ∧ (countMarks X (squares s) = countMarks O (squares s)
     ∨ countMarks X (squares s) = countMarks O (squares s) + 1)
  ∧ (countMarks O (squares s) < countMarks X (squares s) →
     currentPlayer s = Mark O)
  ∧ (¬ countMarks O (squares s) < countMarks X (squares s) →
     currentPlayer s = Mark X).
Proof.
  intros Hreach.
  destruct (Reached_turnInvariant _ _ Hreach) as (Hsum & Hdiff & Hturn).
  unfold currentPlayer. rewrite <- Hturn.
  destruct (xIsNext s); split_and!; (done || lia).
Qed.

(** Three accepted moves from the first render: O is to move. *)
Lemma C6_witness :
  let s := run (mount zeroScores "light") [Play 0; Play 4; Play 1] in
  (currentPlayer s = Mark X ↔ Nat.even 3 = true)
  ∧ countMarks X (squares s) + countMarks O (squares s) = 3
  ∧ (countMarks X (squares s) = countMarks O (squares s)
     ∨ countMarks X (squares s) = countMarks O (squares s) + 1)
  ∧ (countMarks O (squares s) < countMarks X (squares s) →
     currentPlayer s = Mark O)
  ∧ (¬ countMarks O (squares s) < countMarks X (squares s) →
     currentPlayer s = Mark X).
Proof.
  intros s. apply (C6_turn_alternates_and_follows_counts 3 s).
  pose (s0 := mount zeroScores "light").
  change s with (dispatch (dispatch (dispatch s0 (Play 0)) (Play 4)) (Play 1)).
  apply (Reached_move 2 (dispatch (dispatch s0 (Play 0)) (Play 4)) 1).
  - apply (Reached_move 1 (dispatch s0 (Play 0)) 4).
    + apply (Reached_move 0 s0 0).
      * apply Reached_mount.
      * split; vm_compute; reflexivity.
    + split; vm_compute; reflexivity.
  - split; vm_compute; reflexivity.
Defined.

(** ** Storage *)

Lemma mount_scores sc th : scores (mount sc th) = sc.
Proof. unfold mount. by rewrite commit_scores_in_progress. Qed.

Lemma mount_theme sc th : theme (mount sc th) = th.
Proof. unfold mount. by rewrite commit_theme. Qed.








(** ** The score effect *)

Lemma commit_settled s : settled (commit s).
Proof.
  unfold settled, commit. case_decide as Hd; [done|].
  unfold scoreEffect, runCleanup. by case_match.
Qed.

Lemma commit_idle s : settled s → commit s = s.
Proof. unfold settled, commit. intros Hs. by rewrite decide_True. Qed.

(** The updater adds one to the counter of the result and to no other. *)
Lemma recordResult_matches squares prev :
  gameOver squares = true →
  match evaluate squares with
  | Win X _ =>
      recordResult (winner (calculateWinner squares)) (isDraw squares) prev
      = {| score_X := score_X prev + 1; score_O := score_O prev;
           score_draws := score_draws prev |}
  | Win O _ =>
      recordResult (winner (calculateWinner squares)) (isDraw squares) prev
      = {| score_X := score_X prev; score_O := score_O prev + 1;
           score_draws := score_draws prev |}
  | Draw =>
      recordResult (winner (calculateWinner squares)) (isDraw squares) prev
      = {| score_X := score_X prev; score_O := score_O prev;
           score_draws := score_draws prev + 1 |}
  | InProgress => False
  end.
Proof.
  unfold gameOver, evaluate, isDraw, calculateWinner.
  destruct (scanLines_shape squares lines) as [->|(p & l & _ & _ & ->)]; simpl.
  - destruct (everyNonNull squares); [done|discriminate].
  - by destruct p.
Qed.

(** A commit whose dependencies changed to a concluded game records
    the result, when the flag is clear. *)
Lemma commit_records t :
  effectDeps t ≠ Some (currentDeps t) →
  gameOver (squares t) = true → firstConclusionLogged t = false →
  scores (commit t)
  = recordResult (winner (calculateWinner (squares t))) (isDraw (squares t)) (scores t)
  ∧ firstConclusionLogged (commit t) = true.
Proof.
  intros Hdeps Hover Hflag. unfold commit. rewrite decide_False by done.
  unfold scoreEffect.
  cbn [runCleanup squares firstConclusionLogged scores].
  by rewrite Hover, Hflag.
Qed.

(** The move that concludes a game is recorded in the same step, when
    the flag is clear. *)
Lemma conclusion_recorded s i :
  settled s → firstConclusionLogged s = false →
  legalMove s i → gameOver (squares (handlePlay i s)) = true →
  scores (dispatch s (Play i))
  = recordResult (winner (calculateWinner (squares (handlePlay i s))))
      (isDraw (squares (handlePlay i s))) (scores s)
  ∧ firstConclusionLogged (dispatch s (Play i)) = true.
Proof.
  intros Hs Hflag Hlegal Hover.
  assert (Hframe : effectDeps (handlePlay i s) = effectDeps s
                   ∧ firstConclusionLogged (handlePlay i s) = firstConclusionLogged s
                   ∧ scores (handlePlay i s) = scores s).
  { by rewrite (handlePlay_legal _ _ Hlegal). }
  destruct Hframe as (Hd & Hf & Hsc).
  cbn [dispatch]. rewrite <- Hsc. apply commit_records; [|done|congruence].
  rewrite Hd, Hs. unfold currentDeps. rewrite Hover.
  destruct Hlegal as [-> _]. congruence.
Qed.

(** Reading a concluded game again, by a render, a theme toggle, a
    click on the board or the timeout, never changes the scores. *)
Lemma concluded_reread s e :
  settled s → gameOver (squares s) = true → e ≠ Reset →
  scores (dispatch s e) = scores s ∧ settled (dispatch s e)
  ∧ squares (dispatch s e) = squares s.
Proof.
  intros Hs Hover Hne. destruct e as [i| | | |]; simpl.
  - assert (handlePlay i s = s) as ->.
    { apply handlePlay_rejected. intros [Hgo _]. congruence. }
    by rewrite commit_idle.
  - done.
  - rewrite commit_idle by done. done.
  - unfold timeoutFires. by case_match.
  - by rewrite commit_idle.
Qed.

Lemma stuck_commit s :
  stuck s → stuck (commit s) ∧ scores (commit s) = scores s.
Proof.
  intros [Hflag Hpending]. unfold stuck, commit.
  case_decide; [done|].
  unfold scoreEffect, runCleanup. simpl. rewrite Hflag, Hpending.
  rewrite orb_true_r. simpl. by destruct (effectCleanup s).
Qed.

Lemma stuck_dispatch s e :
  stuck s → stuck (dispatch s e) ∧ scores (dispatch s e) = scores s.
Proof.
  intros Hstuck. destruct e as [i| | | |]; simpl.
  - destruct (stuck_commit (handlePlay i s)) as [? ->].
    + destruct Hstuck. unfold stuck, handlePlay. by case_match.
    + split; [done|]. unfold handlePlay. by case_match.
  - by destruct (stuck_commit (handleReset s)) as [? ->].
  - by destruct (stuck_commit (toggleTheme s)) as [? ->].
  - destruct Hstuck as [? Hp]. unfold timeoutFires. by rewrite Hp.
  - by apply stuck_commit.
Qed.

Lemma stuck_run es : ∀ s, stuck s → scores (run s es) = scores s.
Proof.
  induction es as [|e es IH]; intros s Hstuck; [done|].
  destruct (stuck_dispatch s e Hstuck) as [Hs Hsc].
  unfold run in *. simpl. by rewrite IH.
Qed.

Lemma settled_same_board s t :
  settled s → squares t = squares s → effectDeps t = effectDeps s → settled t.
Proof. unfold settled, currentDeps. by intros ? -> ->. Qed.

Lemma countedOnce_going sc s :
  settled s → gameOver (squares s) = false →
  scores s = sc → firstConclusionLogged s = false →
  countedOnce sc s.
Proof.
  intros Hs Hgo Hsc Hflag. unfold countedOnce. rewrite Hgo.
  split_and!; [done|done|discriminate].
Qed.

Lemma countedOnce_dispatch sc s e :
  e ≠ Reset → countedOnce sc s → countedOnce sc (dispatch s e).
Proof.
  intros Hne (Hs & Hgoing & Hover).
  destruct (gameOver (squares s)) eqn:Hgo.
  - destruct (concluded_reread s e Hs Hgo Hne) as (Hsc & Hs' & Hsq).
    unfold countedOnce. rewrite Hsq, Hgo, Hsc.
    split_and!; [done|discriminate|done].
  - destruct (Hgoing eq_refl) as [Hsc Hflag].
    destruct e as [i| | | |]; [|done|..]; cbn [dispatch].
    + destruct (decide (legalMove s i)) as [Hlegal|Hillegal].
      * destruct (gameOver (squares (handlePlay i s))) eqn:Hgo'.
        -- destruct (conclusion_recorded s i Hs Hflag Hlegal Hgo') as [Hrec _].
           cbn [dispatch] in Hrec.
           unfold countedOnce. rewrite commit_squares, Hgo', Hrec, Hsc.
           split_and!; [apply commit_settled|discriminate|done].
        -- apply countedOnce_going.
           ++ apply commit_settled.
           ++ by rewrite commit_squares.
           ++ rewrite commit_scores_in_progress by done.
              by rewrite (handlePlay_legal _ _ Hlegal).
           ++ rewrite commit_flag_in_progress by done.
              by rewrite (handlePlay_legal _ _ Hlegal).
      * rewrite handlePlay_rejected by done. rewrite commit_idle by done.
        by apply countedOnce_going.
    + assert (Hst : settled (toggleTheme s)) by by eapply settled_same_board.
      rewrite commit_idle by done. by apply countedOnce_going.
    + unfold timeoutFires. case_match; by apply countedOnce_going.
    + rewrite commit_idle by done. by apply countedOnce_going.
Qed.

Lemma countedOnce_run sc es :
  ∀ s, Forall (λ e, e ≠ Reset) es → countedOnce sc s → countedOnce sc (run s es).
Proof.
  induction es as [|e es IH]; intros s Hes Hinv; [done|].
  apply Forall_cons in Hes as [He Hes].
  unfold run in *. simpl. apply IH; [done|]. by apply countedOnce_dispatch.
Qed.

Lemma countedOnce_mount sc th : countedOnce sc (mount sc th).
Proof.
  split; [apply commit_settled|]. unfold mount.
  rewrite commit_squares, commit_scores_in_progress, commit_flag_in_progress by done.
  by split.
Qed.

(** The first game after the first render, whatever is played and
    however often the state is read again: its conclusion adds one to
    the counter of the result, once, and to no other counter. *)
Lemma first_game_counted_once sc th es :
  Forall (λ e, e ≠ Reset) es →
  match evaluate (squares (run (mount sc th) es)) with
  | InProgress => scores (run (mount sc th) es) = sc
  | Win X _ =>
      scores (run (mount sc th) es)
      = {| score_X := score_X sc + 1; score_O := score_O sc;
           score_draws := score_draws sc |}
  | Win O _ =>
      scores (run (mount sc th) es)
      = {| score_X := score_X sc; score_O := score_O sc + 1;
           score_draws := score_draws sc |}
  | Draw =>
      scores (run (mount sc th) es)
      = {| score_X := score_X sc; score_O := score_O sc;
           score_draws := score_draws sc + 1 |}
  end.
Proof.
  intros Hes.
  destruct (countedOnce_run sc es _ Hes (countedOnce_mount sc th))
    as (_ & Hgoing & Hover).
  destruct (gameOver (squares (run (mount sc th) es))) eqn:Hgo.
  - pose proof (recordResult_matches _ sc Hgo) as Hm.
    rewrite (Hover eq_refl).
    destruct (evaluate (squares (run (mount sc th) es))) as [|[|] l|]; done.
  - apply gameOver_evaluate in Hgo as Hev. rewrite Hev. by apply Hgoing.
Qed.

(** A reset before the timeout has fired runs the cleanup, which clears
    the timeout; the flag is then left set. *)
Lemma reset_before_timeout_sticks s :
  settled s → gameOver (squares s) = true →
  firstConclusionLogged s = true → effectCleanup s = true →
  stuck (dispatch s Reset).
Proof.
  intros Hs Hover Hflag Hclean. simpl.
  unfold stuck, commit. rewrite decide_False.
  - unfold scoreEffect, runCleanup. simpl. by rewrite Hflag, Hclean.
  - simpl. rewrite Hs. unfold currentDeps. simpl.
    rewrite Hover. intros [=].
Qed.

(** When the timeout fires before the reset, the second game is
    counted. *)
Lemma timeout_before_reset_counts_second_game :
  scores (run (mount zeroScores "light")
            (xWinMoves ++ [Timeout; Reset] ++ xWinMoves))
  = {| score_X := 2; score_O := 0; score_draws := 0 |}.
Proof. vm_compute. reflexivity. Qed.

(** A drawn game adds one to the draws and to nothing else. *)
Example draw_counted_once :
  let s := run (mount zeroScores "light")
             [Play 0; Play 1; Play 2; Play 4; Play 3; Play 5; Play 7; Play 6; Play 8] in
  squares s = drawnBoard
  ∧ evaluate (squares s) = Draw
  ∧ scores s = {| score_X := 0; score_O := 0; score_draws := 1 |}
  ∧ scores (run s [Render; Timeout; Render; Play 0])
    = {| score_X := 0; score_O := 0; score_draws := 1 |}.
Proof. intros s. split_and!; vm_compute; reflexivity. Qed.

(** C1. X wins a first game and the win is counted once, however often
    the concluded state is read again; New Game is pressed before the
    200 ms timeout has fired; X wins the second game in the same way.
    The second win is not counted, and from then on no conclusion is
    ever counted again. *)
Theorem C1_reset_before_timeout_loses_later_games :
  let s1 := run (mount zeroScores "light") xWinMoves in
  let s2 := dispatch s1 Reset in
  let s3 := run s2 xWinMoves in
  evaluate (squares s1) = Win X (0, 1, 2)
  ∧ scores s1 = {| score_X := 1; score_O := 0; score_draws := 0 |}
  ∧ scores (run s1 [Render; Play 5; Render; ToggleTheme])
    = {| score_X := 1; score_O := 0; score_draws := 0 |}
  ∧ evaluate (squares s2) = InProgress
  ∧ firstConclusionLogged s2 = true
  ∧ pendingTimeout s2 = false
  ∧ evaluate (squares s3) = Win X (0, 1, 2)
  ∧ scores s3 = {| score_X := 1; score_O := 0; score_draws := 0 |}
  ∧ (∀ es, scores (run s3 es)
           = {| score_X := 1; score_O := 0; score_draws := 0 |}).
Proof.
  intros s1 s2 s3.
  assert (Hstuck : stuck s3) by (split; vm_compute; reflexivity).
  assert (Hs3 : scores s3 = {| score_X := 1; score_O := 0; score_draws := 0 |})
    by (vm_compute; reflexivity).
  split_and!.
  - vm_compute. reflexivity.
  - vm_compute. reflexivity.
  - vm_compute. reflexivity.
  - vm_compute. reflexivity.
  - vm_compute. reflexivity.
  - vm_compute. reflexivity.
  - vm_compute. reflexivity.
  - exact Hs3.
  - intros es. rewrite <- Hs3. by apply stuck_run.
Qed.

(** A set flag is cleared by no handler and by no effect phase. *)
Lemma commit_keeps_set_flag s :
  firstConclusionLogged s = true → firstConclusionLogged (commit s) = true.
Proof.
  intros Hflag. unfold commit. case_decide; [done|].
  unfold scoreEffect. cbn [runCleanup squares firstConclusionLogged].
  by case_match.
Qed.

(** After X's win the flag is set; a reset leaves it set, the timeout
    clears it. *)
Lemma C2_counterexample :
  let s := run (mount zeroScores "light") xWinMoves in
  firstConclusionLogged s = true
  ∧ firstConclusionLogged (dispatch s Reset) = true
  ∧ firstConclusionLogged (dispatch s Timeout) = false.
Proof. intros s. split_and!; vm_compute; reflexivity. Qed.

(** C2, as the code has it.  The flag is cleared by the callback of the
    timeout that the score effect started, and by nothing else: a
    transition that takes the flag from set to clear is the timeout
    firing while it was pending. *)
Theorem C2_flag_cleared_only_by_timeout (s : App) (e : Event) :
  firstConclusionLogged s = true →
  firstConclusionLogged (dispatch s e) = false →
  e = Timeout ∧ pendingTimeout s = true.
Proof.
  intros Hset Hclear. destruct e as [i| | | |]; cbn [dispatch] in Hclear.
  - rewrite commit_keeps_set_flag in Hclear; [discriminate|].
    unfold handlePlay. by case_match.
  - rewrite commit_keeps_set_flag in Hclear; [discriminate|done].
  - rewrite commit_keeps_set_flag in Hclear; [discriminate|done].
  - split; [done|]. unfold timeoutFires in Hclear.
    destruct (pendingTimeout s); [done|congruence].
  - rewrite commit_keeps_set_flag in Hclear; [discriminate|done].
Qed.

Lemma C2_witness :
  let s := run (mount zeroScores "light") xWinMoves in
  Timeout = Timeout ∧ pendingTimeout s = true.
Proof.
  intros s. apply (C2_flag_cleared_only_by_timeout s Timeout).
  - vm_compute. reflexivity.
  - vm_compute. reflexivity.
Defined.

(** * Further properties of the components *)

(** ** Keyboard navigation *)

Lemma row_col_bounds i : i = 3 * (i / 3) + i mod 3 ∧ i mod 3 < 3.
Proof. split; [apply Nat.div_mod_eq|by apply Nat.mod_upper_bound]. Qed.

Ltac name_row_col i :=
  let Hd := fresh "Hd" in let Hm := fresh "Hm" in
  destruct (row_col_bounds i) as [Hd Hm];
  generalize dependent (i / 3); intros ?r Hd;
  generalize dependent (i mod 3); intros ?c Hm Hd.

(** The arrows in terms of the index: left and right move by one cell
    and stop at the ends of the row, up and down move by one row and
    stop at the first and last row; another key moves nothing. *)
Theorem nextIndex_steps (i : nat) (key : string) :
  (key = "ArrowRight" → nextIndex i key = if decide (i mod 3 < 2) then i + 1 else i)
  ∧ (key = "ArrowLeft" → nextIndex i key = if decide (0 < i mod 3) then i - 1 else i)
  ∧ (key = "ArrowDown" → nextIndex i key = if decide (i / 3 < 2) then i + 3 else i)
  ∧ (key = "ArrowUp" → nextIndex i key = if decide (0 < i / 3) then i - 3 else i)
  ∧ (key ∉ arrowKeys → nextIndex i key = i).
Proof.
  unfold nextIndex. name_row_col i.
  split_and!.
  - intros ->. simpl. repeat case_decide; lia.
  - intros ->. simpl. repeat case_decide; lia.
  - intros ->. simpl. repeat case_decide; lia.
  - intros ->. simpl. repeat case_decide; lia.
  - intros Hkey. unfold arrowKeys in Hkey.
    rewrite !not_elem_of_cons in Hkey. destruct Hkey as (? & ? & ? & ? & _).
    repeat case_decide; try done; lia.
Qed.

Lemma div_mod_row_col r c :
  c < 3 → (r * 3 + c) / 3 = r ∧ (r * 3 + c) mod 3 = c.
Proof.
  intros Hc. split; symmetry.
  - apply (Nat.div_unique _ 3 r c); lia.
  - apply (Nat.mod_unique _ 3 r c); lia.
Qed.

(** [nextIndex] is a row and a column put together again. *)
Lemma nextIndex_row_col i key :
  ∃ r c, c < 3 ∧ nextIndex i key = r * 3 + c
    ∧ (key ≠ "ArrowUp" → key ≠ "ArrowDown" → r = i / 3)
    ∧ (key ≠ "ArrowLeft" → key ≠ "ArrowRight" → c = i mod 3)
    ∧ (i < 9 → r < 3).
Proof.
  unfold nextIndex. name_row_col i.
  eexists _, _. split_and!; [|reflexivity|..].
  - repeat case_decide; lia.
  - intros ? ?. repeat case_decide; done.
  - intros ? ?. repeat case_decide; done.
  - intros ?. repeat case_decide; lia.
Qed.



(** Left and right stay in the row, up and down stay in the column. *)
Theorem nextIndex_keeps_row_or_column (i : nat) (key : string) :
  (key ≠ "ArrowUp" → key ≠ "ArrowDown" → nextIndex i key / 3 = i / 3)
  ∧ (key ≠ "ArrowLeft" → key ≠ "ArrowRight" → nextIndex i key mod 3 = i mod 3).
Proof.
  destruct (nextIndex_row_col i key) as (r & c & Hc & -> & Hrow & Hcol & _).
  destruct (div_mod_row_col r c Hc) as [-> ->].
  split; intros; [by apply Hrow|by apply Hcol].
Qed.

Lemma nextIndex_other_key i key : key ∉ arrowKeys → nextIndex i key = i.
Proof.
  intros Hkey. unfold arrowKeys in Hkey.
  rewrite !not_elem_of_cons in Hkey. destruct Hkey as (? & ? & ? & ? & _).
  unfold nextIndex. name_row_col i.
  repeat case_decide; try done; lia.
Qed.

(** On the board, when an arrow has moved the focus the opposite arrow
    brings it back. *)
Theorem nextIndex_opposite_undoes (i : nat) (key : string) :
  i < 9 →
  nextIndex i key ≠ i →
  nextIndex (nextIndex i key) (opposite key) = i.
Proof.
  intros Hi Hmoved.
  destruct (decide (key ∈ arrowKeys)) as [Hin|Hout].
  - unfold arrowKeys in Hin. rewrite !elem_of_cons in Hin.
    destruct Hin as [->|[->|[->|[->|Hnil]]]]; [..|by apply elem_of_nil in Hnil];
      revert Hmoved;
      do 9 (destruct i as [|i]; [vm_compute; by intros|]); lia.
  - destruct Hmoved. by apply nextIndex_other_key.
Qed.

Lemma nextIndex_opposite_undoes_witness :
  nextIndex (nextIndex 4 "ArrowUp") (opposite "ArrowUp") = 4.
Proof.
  apply (nextIndex_opposite_undoes 4 "ArrowUp").
  - lia.
  - vm_compute. discriminate.
Defined.

(** ** Clicks and keys *)

Lemma squareDisabled_legalMove s i :
  squareDisabled (squares s) (gameOver (squares s)) i = false ↔ legalMove s i.
Proof.
  unfold squareDisabled, legalMove.
  destruct (truthy (js_get (squares s) i)), (gameOver (squares s)); simpl;
    split; (done || by intros []).
Qed.

Lemma clickSquare_disabled s i :
  squareDisabled (squares s) (gameOver (squares s)) i = true → clickSquare s i = s.
Proof.
  intros Hdis. unfold clickSquare, handleClick.
  unfold squareDisabled in Hdis. by rewrite Hdis.
Qed.

Lemma clickSquare_enabled s i :
  squareDisabled (squares s) (gameOver (squares s)) i = false →
  clickSquare s i = dispatch s (Play i).
Proof.
  intros Hdis. unfold clickSquare, handleClick.
  unfold squareDisabled in Hdis. by rewrite Hdis.
Qed.

(** The guard of [Board.handleClick] and the guard of [handlePlay]
    reject the same clicks.  A click on a disabled square changes
    nothing; a click on an enabled square is the move: the mover's mark
    is in the square afterwards and the turn has passed. *)
Theorem click_guards_agree (s : App) (i : nat) :
  (squareDisabled (squares s) (gameOver (squares s)) i = true →
   clickSquare s i = s ∧ handlePlay i s = s)
  ∧ (squareDisabled (squares s) (gameOver (squares s)) i = false →
     clickSquare s i = dispatch s (Play i)
     ∧ js_get (squares (clickSquare s i)) i = currentPlayer s
     ∧ xIsNext (clickSquare s i) = negb (xIsNext s)).
Proof.
  split; intros Hdis.
  - split; [by apply clickSquare_disabled|].
    + apply handlePlay_rejected. intros Hlegal.
      apply squareDisabled_legalMove in Hlegal. congruence.
  - rewrite clickSquare_enabled by done.
    apply squareDisabled_legalMove in Hdis. cbn [dispatch].
    rewrite commit_squares, commit_xIsNext, (handlePlay_legal _ _ Hdis).
    split_and!; [done|apply js_get_js_set_eq|done].
Qed.

Lemma renderedFrom_no_holes k squares :
  Forall (λ c, c ≠ Undefined) squares →
  renderedFrom k squares = seq k (length squares).
Proof.
  intros Hall. revert k.
  induction Hall as [|c rest Hc _ IH]; intros k; simpl; [done|].
  rewrite decide_False by done. by rewrite IH.
Qed.

(** Enter and Space on a square do what a click on it does, also on a
    disabled square, where that is nothing.  No other key changes the
    App, and only an arrow key moves the focus, to the button at the
    position [handleKeyNav] computes, which is one of the buttons on
    the page; on a board without holes that button is the square whose
    index is that position. *)
Theorem keyboard_activation (s : App) (idx : nat) (key : string) :
  (key = "Enter" ∨ key = " " → pressKey s idx key = (clickSquare s idx, None))
  ∧ (key ≠ "Enter" → key ≠ " " → (pressKey s idx key).1 = s)
  ∧ (∀ j, (pressKey s idx key).2 = Some j →
       key ∈ arrowKeys ∧ j = nextIndex idx key
       ∧ j < length (renderedSquares (squares s)))
  ∧ (Forall (λ c, c ≠ Undefined) (squares s) →
     ∀ j, (pressKey s idx key).2 = Some j →
          renderedSquares (squares s) !! j = Some j).
Proof.
  assert (Hfocus : ∀ j, (pressKey s idx key).2 = Some j →
            key ∈ arrowKeys ∧ j = nextIndex idx key
            ∧ j < length (renderedSquares (squares s))).
  { intros j. unfold pressKey, handleKeyDown.
    case_bool_decide as Harrow; cbn [called snd].
    - unfold handleKeyNav. case_decide; [|done]. by intros [= <-].
    - destruct (bool_decide (key = "Enter") || bool_decide (key = " ")); cbn [called];
        [|done]. by destruct (negb _). }
  split_and!.
  - intros Hkey. unfold pressKey, handleKeyDown.
    assert (bool_decide (key ∈ arrowKeys) = false) as ->
      by (destruct Hkey as [-> | ->]; vm_compute; reflexivity).
    assert (bool_decide (key = "Enter") || bool_decide (key = " ") = true) as ->.
    { destruct Hkey as [-> | ->]; [done|]. apply orb_true_r. }
    cbn [called].
    destruct (squareDisabled _ _ idx) eqn:Hdis; cbn [negb]; [|done].
    by rewrite clickSquare_disabled.
  - intros Hne Hns. unfold pressKey, handleKeyDown.
    rewrite (bool_decide_eq_false_2 (key = "Enter")) by done.
    rewrite (bool_decide_eq_false_2 (key = " ")) by done.
    by case_bool_decide.
  - exact Hfocus.
  - intros Hall j Hj. destruct (Hfocus j Hj) as (_ & _ & Hlt).
    unfold renderedSquares in *.
    rewrite renderedFrom_no_holes in Hlt |- * by done.
    rewrite length_seq in Hlt. by rewrite lookup_seq_lt.
Qed.

(** After a play past the end of the array the cells in between are
    holes without a button: ten buttons are on the page, and the arrow
    that asks for position 10 moves no focus. *)
Example pressKey_on_a_board_with_holes :
  let s := dispatch (mount zeroScores "light") (Play 11) in
  renderedSquares (squares s) = [0; 1; 2; 3; 4; 5; 6; 7; 8; 11]
  ∧ nextIndex 11 "ArrowLeft" = 10
  ∧ (pressKey s 11 "ArrowLeft").2 = None.
Proof. intros s. split_and!; vm_compute; reflexivity. Qed.

(** ** What the board shows *)

Lemma completed_cells squares a b c :
  completed squares (a, b, c) = true →
  ∃ p, js_get squares a = Mark p ∧ js_get squares b = Mark p
       ∧ js_get squares c = Mark p.
Proof.
  unfold completed, strict_eq.
  intros [[Ht Hab%bool_decide_eq_true]%andb_true_iff Hac%bool_decide_eq_true]%andb_true_iff.
  destruct (js_get squares a) as [| |p] eqn:Ha; try discriminate.
  by exists p.
Qed.

Lemma lines_on_board a b c :
  (a, b, c) ∈ lines → a < 9 ∧ b < 9 ∧ c < 9.
Proof.
  intros Hl. unfold lines in Hl.
  repeat (apply elem_of_cons in Hl as [[= -> -> ->]|Hl]; [lia|]).
  by apply elem_of_nil in Hl.
Qed.

Lemma lines_three_squares l :
  l ∈ lines → length (List.filter (isWinningIndex (Some l)) (seq 0 9)) = 3.
Proof.
  intros Hl. unfold lines in Hl.
  repeat (apply elem_of_cons in Hl as [->|Hl]; [vm_compute; reflexivity|]).
  by apply elem_of_nil in Hl.
Qed.

(** The squares shown as winning are squares of the board that hold
    the winner's mark, three of them when there is a winner and none
    when there is not. *)
Theorem winning_squares_hold_the_winner (squares : list Cell) :
  (truthy (winner (calculateWinner squares)) = false →
   ∀ i, isWinningIndex (line (calculateWinner squares)) i = false)
  ∧ (∀ i, isWinningIndex (line (calculateWinner squares)) i = true →
       i < 9 ∧ js_get squares i = winner (calculateWinner squares)
       ∧ truthy (winner (calculateWinner squares)) = true)
  ∧ (truthy (winner (calculateWinner squares)) = true →
     length (List.filter (isWinningIndex (line (calculateWinner squares))) (seq 0 9)) = 3).
Proof.
  unfold calculateWinner.
  destruct (scanLines_shape squares lines) as [Hnone|(p & l & Hin & Hl & Hsome)].
  - rewrite Hnone. cbn [winner line truthy isWinningIndex].
    split_and!; [done|discriminate|discriminate].
  - assert (Hw : winner (scanLines squares lines) = js_get squares (l.1.1)).
    { destruct (first_completed_split squares lines) as (pre & l1 & post & Hsplit & Hpre & Hl1);
        [by exists l|].
      rewrite Hsplit, scanLines_first in Hsome |- * by done.
      by injection Hsome as _ ->. }
    rewrite Hw, Hsome. cbn [line].
    destruct l as [[a b] c]. cbn [fst isWinningIndex].
    destruct (completed_cells _ _ _ _ Hl) as (q & Ha & Hb & Hc).
    destruct (lines_on_board _ _ _ Hin) as (? & ? & ?).
    split_and!.
    + rewrite Ha. discriminate.
    + intros i Hi%bool_decide_eq_true.
      rewrite !elem_of_cons in Hi.
      destruct Hi as [->|[->|[->|Hnil]]]; [..|by apply elem_of_nil in Hnil];
        rewrite Ha; split_and!; (done || congruence).
    + intros _. by apply (lines_three_squares (a, b, c)).
Qed.

(** The status line says what the result of the board is: the winner
    when a line is completed, a draw when the board is full without
    one, and otherwise whose turn it is. *)
Theorem status_follows_result (s : App) :
  match evaluate (squares s) with
  | Win p _ =>
      statusMessage s = "Winner: " +:+ playerString p
      ∧ statusClassOf s = "status-won"
  | Draw =>
      statusMessage s = "It's a draw!" ∧ statusClassOf s = "status-draw"
  | InProgress =>
      statusMessage s = "Current player: " +:+ cellString (currentPlayer s)
      ∧ statusClassOf s = "status-turn"
  end.
Proof.
  unfold statusMessage, statusClassOf, message, statusClass, evaluate, isDraw,
    calculateWinner, currentPlayer.
  destruct (scanLines_shape (squares s) lines) as [->|(p & l & _ & _ & ->)];
    cbn [winner line truthy negb andb].
  - by destruct (everyNonNull (squares s)).
  - done.
Qed.

(** On the board, the label of a square tells which square it is and
    what it shows: two labels are equal only for the same index and the
    same text of the value. *)
Theorem ariaLabel_tells_squares_apart (i j : nat) (v w : Cell) :
  i < 9 → j < 9 →
  ariaLabel i v = ariaLabel j w →
  i = j ∧ valText v = valText w.
Proof.
  intros Hi Hj.
  do 9 (destruct i as [|i];
        [do 9 (destruct j as [|j];
               [destruct v as [| |[|]], w as [| |[|]];
                vm_compute; intros Heq; (done || discriminate Heq)|]); lia|]).
  lia.
Qed.

Lemma ariaLabel_tells_squares_apart_witness :
  4 = 4 ∧ valText (Mark X) = valText (Mark X).
Proof.
  apply (ariaLabel_tells_squares_apart 4 4 (Mark X) (Mark X)); [lia|lia|reflexivity].
Defined.

Example ariaLabel_centre : ariaLabel 4 (Mark X) = "Cell 2,2, X".
Proof. vm_compute. reflexivity. Qed.

Example ariaLabel_corner : ariaLabel 8 Empty = "Cell 3,3, empty".
Proof. vm_compute. reflexivity. Qed.

(** ** The game as it is played *)

Lemma dispatch_keeps_shape s e :
  onBoard e →
  length (squares s) = 9 ∧ Forall (λ c, c ≠ Undefined) (squares s) →
  length (squares (dispatch s e)) = 9
  ∧ Forall (λ c, c ≠ Undefined) (squares (dispatch s e)).
Proof.
  intros He [Hlen Hall].
  destruct e as [i| | | |]; cbn [dispatch];
    rewrite ?commit_squares, ?timeoutFires_squares; try done.
  - destruct (decide (legalMove s i)) as [Hlegal|Hillegal].
    + rewrite (handlePlay_legal _ _ Hlegal). cbn [squares].
      simpl in He. unfold js_set. rewrite decide_True by lia.
      split; [by rewrite length_insert|].
      apply Forall_insert; [done|]. unfold currentPlayer. by case_match.
    + by rewrite handlePlay_rejected.
  - split; [done|]. cbn [handleReset squares]. unfold emptyBoard.
    apply Forall_replicate. done.
Qed.

(** Whatever squares are clicked, whatever else happens, the board has
    nine cells and none of them is [undefined]. *)
Theorem board_keeps_its_shape (sc : Scores) (th : string) (es : list Event) :
  Forall onBoard es →
  length (squares (run (mount sc th) es)) = 9
  ∧ Forall (λ c, c ≠ Undefined) (squares (run (mount sc th) es)).
Proof.
  intros Hes.
  assert (Hstart : length (squares (mount sc th)) = 9
                   ∧ Forall (λ c, c ≠ Undefined) (squares (mount sc th))).
  { unfold mount. rewrite commit_squares. cbn [squares]. split; [done|].
    apply Forall_replicate. done. }
  revert Hstart. generalize (mount sc th). unfold run.
  induction Hes as [|e es He Hes IH]; intros s Hs; [done|].
  cbn [foldl]. apply IH. by apply dispatch_keeps_shape.
Qed.

Lemma board_keeps_its_shape_witness :
  length (squares (run (mount zeroScores "light") [Play 4; Reset; Play 0; Play 0])) = 9
  ∧ Forall (λ c, c ≠ Undefined)
      (squares (run (mount zeroScores "light") [Play 4; Reset; Play 0; Play 0])).
Proof.
  apply (board_keeps_its_shape zeroScores "light" [Play 4; Reset; Play 0; Play 0]).
  repeat constructor; simpl; lia.
Defined.

(** A mark, once placed, stays where it is until the game is reset. *)
Theorem marks_stay_until_reset (s : App) (e : Event) (j : nat) (p : Player) :
  e ≠ Reset →
  js_get (squares s) j = Mark p →
  js_get (squares (dispatch s e)) j = Mark p.
Proof.
  intros Hne Hj.
  destruct e as [i| | | |]; cbn [dispatch];
    rewrite ?commit_squares, ?timeoutFires_squares; try done.
  destruct (decide (legalMove s i)) as [Hlegal|Hillegal].
  - rewrite (handlePlay_legal _ _ Hlegal). cbn [squares].
    rewrite js_get_js_set_ne; [done|].
    intros ->. destruct Hlegal as [_ Hfalsy]. by rewrite Hj in Hfalsy.
  - by rewrite handlePlay_rejected.
Qed.

Lemma marks_stay_until_reset_witness :
  js_get (squares (dispatch (dispatch (mount zeroScores "light") (Play 4)) (Play 4))) 4
  = Mark X.
Proof.
  apply (marks_stay_until_reset (dispatch (mount zeroScores "light") (Play 4)) (Play 4) 4 X).
  - discriminate.
  - reflexivity.
Defined.

(** Once the game is concluded, nothing but a reset changes the board,
    the turn or the result. *)
Theorem concluded_game_is_frozen (s : App) (e : Event) :
  gameOver (squares s) = true →
  e ≠ Reset →
  squares (dispatch s e) = squares s
  ∧ xIsNext (dispatch s e) = xIsNext s
  ∧ evaluate (squares (dispatch s e)) = evaluate (squares s).
Proof.
  intros Hover Hne.
  assert (Hsq : squares (dispatch s e) = squares s
                ∧ xIsNext (dispatch s e) = xIsNext s).
  { destruct e as [i| | | |]; cbn [dispatch];
      rewrite ?commit_squares, ?commit_xIsNext,
        ?timeoutFires_squares, ?timeoutFires_xIsNext; try done.
    rewrite handlePlay_rejected; [done|]. intros [Hgo _]. congruence. }
  destruct Hsq as [Hsq Hx]. by rewrite Hsq.
Qed.

Lemma concluded_game_is_frozen_witness :
  let s := run (mount zeroScores "light") xWinMoves in
  squares (dispatch s (Play 8)) = squares s
  ∧ xIsNext (dispatch s (Play 8)) = xIsNext s
  ∧ evaluate (squares (dispatch s (Play 8))) = evaluate (squares s).
Proof.
  intros s. apply (concluded_game_is_frozen s (Play 8)).
  - vm_compute. reflexivity.
  - discriminate.
Defined.

Lemma in_progress_no_line squares l :
  gameOver squares = false → l ∈ lines → completed squares l = false.
Proof.
  intros Hgo Hl. apply not_true_is_false. intros Hcomp.
  destruct (first_completed_split squares lines) as (pre & l1 & post & Hsplit & Hpre & Hl1);
    [by exists l|].
  unfold gameOver, calculateWinner in Hgo.
  rewrite Hsplit, scanLines_first in Hgo by done. cbn [winner] in Hgo.
  destruct (completed_truthy _ _ Hl1) as [p Hp]. by rewrite Hp in Hgo.
Qed.

Lemma completed_by_the_move squares i v a b c :
  completed squares (a, b, c) = false →
  completed (js_set squares i v) (a, b, c) = true →
  js_get (js_set squares i v) a = v.
Proof.
  intros Hbefore Hafter.
  destruct (completed_cells _ _ _ _ Hafter) as (p & Ha & Hb & Hc).
  destruct (decide (a = i)) as [->|Hai]; [apply js_get_js_set_eq|].
  destruct (decide (b = i)) as [->|Hbi];
    [rewrite js_get_js_set_eq in Hb; congruence|].
  destruct (decide (c = i)) as [->|Hci];
    [rewrite js_get_js_set_eq in Hc; congruence|].
  unfold completed in *.
  rewrite !js_get_js_set_ne in Hafter by done. congruence.
Qed.

Lemma Reached_lines_of_last_mover n s :
  Reached n s →
  ∀ l, l ∈ lines → completed (squares s) l = true →
       js_get (squares s) (l.1.1) = lastMover s.
Proof.
  induction 1 as [sc th|n s _ _|n s i _ IH Hlegal|n s i _ IH Hn
                  |n s _ IH|n s _ IH|n s _ IH];
    unfold lastMover; cbn [dispatch];
    rewrite ?commit_squares, ?commit_xIsNext,
      ?timeoutFires_squares, ?timeoutFires_xIsNext; try done.
  - unfold mount. rewrite commit_squares. cbn [squares].
    intros l Hl Hc. by rewrite (in_progress_no_line emptyBoard l) in Hc.
  - cbn [handleReset squares].
    intros l Hl Hc. by rewrite (in_progress_no_line emptyBoard l) in Hc.
  - rewrite (handlePlay_legal _ _ Hlegal). cbn [squares xIsNext].
    intros [[a b] c] Hl Hc. cbn [fst].
    rewrite (completed_by_the_move (squares s) i (currentPlayer s) a b c);
      [|apply in_progress_no_line; [by destruct Hlegal|done]|done].
    unfold currentPlayer. by destruct (xIsNext s).
  - by rewrite handlePlay_rejected.
Qed.

(** In every state the App can reach, a completed line holds the marks
    of the player who moved last; so the winner is the player who just
    moved, whichever line the scan meets first, and the two players
    never both have a line. *)
Theorem winner_is_the_last_mover (n : nat) (s : App) :
  Reached n s →
  (∀ l, l ∈ lines → completed (squares s) l = true →
        js_get (squares s) (l.1.1) = lastMover s)
  ∧ (truthy (winner (calculateWinner (squares s))) = true →
     winner (calculateWinner (squares s)) = lastMover s
     ∧ currentPlayer s ≠ winner (calculateWinner (squares s))).
Proof.
  intros Hreach.
  pose proof (Reached_lines_of_last_mover n s Hreach) as Hlines.
  split; [done|]. unfold calculateWinner.
  destruct (scanLines_shape (squares s) lines) as [->|(p & l & Hin & Hl & Heq)];
    [discriminate|].
  intros _.
  destruct (first_completed_split (squares s) lines)
    as (pre & l1 & post & Hsplit & Hpre & Hl1); [by exists l|].
  assert (Hin1 : l1 ∈ lines).
  { rewrite Hsplit. apply elem_of_app. right. apply list_elem_of_here. }
  rewrite Hsplit, scanLines_first by done. cbn [winner].
  rewrite (Hlines l1 Hin1 Hl1).
  split; [done|]. unfold currentPlayer, lastMover. by destruct (xIsNext s).
Qed.

Ltac reach_by_moves :=
  first [ apply Reached_mount
        | apply Reached_move; [reach_by_moves | split; vm_compute; reflexivity] ].

(** After X has completed the first row: the row holds the mark of the
    last mover, X is the winner and O is the player to move. *)
Lemma winner_is_the_last_mover_witness :
  let s := run (mount zeroScores "light") xWinMoves in
  js_get (squares s) 0 = lastMover s
  ∧ winner (calculateWinner (squares s)) = Mark X
  ∧ winner (calculateWinner (squares s)) = lastMover s
  ∧ currentPlayer s ≠ winner (calculateWinner (squares s)).
Proof.
  intros s.
  assert (Hreach : Reached 5 s).
  { unfold s, run, xWinMoves. cbn [foldl]. reach_by_moves. }
  destruct (winner_is_the_last_mover 5 s Hreach) as [Hlines Hwinner].
  split_and!.
  - apply (Hlines (0, 1, 2)); [apply list_elem_of_here|vm_compute; reflexivity].
  - vm_compute. reflexivity.
  - apply Hwinner. vm_compute. reflexivity.
  - apply Hwinner. vm_compute. reflexivity.
Defined.

Lemma everyNonNull_false squares :
  everyNonNull squares = false → ∃ i, squares !! i = Some Empty.
Proof.
  unfold everyNonNull, strict_eq.
  induction squares as [|c rest IH]; simpl; [done|].
  case_bool_decide as Hc; simpl.
  - intros _. exists 0. by rewrite Hc.
  - intros Hrest. destruct (IH Hrest) as [i Hi]. by exists (S i).
Qed.

(** As long as the game is not over, some square of the board is empty,
    and clicking it is a move that [handlePlay] accepts. *)
Theorem in_progress_has_a_move (s : App) :
  gameOver (squares s) = false →
  ∃ i, i < length (squares s)
       ∧ js_get (squares s) i = Empty
       ∧ legalMove s i
       ∧ handlePlay i s ≠ s.
Proof.
  intros Hgo.
  assert (Hevery : everyNonNull (squares s) = false).
  { unfold gameOver, isDraw in Hgo.
    destruct (truthy (winner (calculateWinner (squares s)))); [done|].
    by destruct (everyNonNull (squares s)). }
  destruct (everyNonNull_false _ Hevery) as [i Hi].
  assert (Hget : js_get (squares s) i = Empty) by (unfold js_get; by rewrite Hi).
  assert (Hlegal : legalMove s i) by (split; [done|by rewrite Hget]).
  exists i. split_and!; [by eapply lookup_lt_Some|done|done|].
  rewrite (handlePlay_legal _ _ Hlegal). intros Heq.
  apply (f_equal xIsNext) in Heq. cbn [xIsNext] in Heq.
  by destruct (xIsNext s).
Qed.

Lemma in_progress_has_a_move_witness :
  ∃ i, i < length (squares (mount zeroScores "light"))
       ∧ js_get (squares (mount zeroScores "light")) i = Empty
       ∧ legalMove (mount zeroScores "light") i
       ∧ handlePlay i (mount zeroScores "light") ≠ mount zeroScores "light".
Proof. apply (in_progress_has_a_move (mount zeroScores "light")). reflexivity. Defined.

Lemma countMarks_le_length squares :
  countMarks X squares + countMarks O squares ≤ length squares
  ∧ (countMarks X squares + countMarks O squares = length squares →
     everyNonNull squares = true).
Proof.
  unfold everyNonNull, strict_eq.
  induction squares as [|c rest [IHle IHeq]]; simpl; [done|].
  destruct c as [| |[|]]; simpl; repeat case_decide; try done;
    (split; [lia|]); intros Heq; (lia || (apply IHeq; lia)).
Qed.

(** A game on the nine cells takes at most nine accepted moves, and
    after the ninth it is over. *)
Theorem game_ends_within_nine_moves (n : nat) (s : App) :
  Reached n s →
  length (squares s) = 9 →
  n ≤ 9 ∧ (n = 9 → gameOver (squares s) = true).
Proof.
  intros Hreach Hlen.
  destruct (Reached_turnInvariant _ _ Hreach) as (Hsum & _ & _).
  destruct (countMarks_le_length (squares s)) as [Hle Hfull].
  split; [lia|]. intros ->.
  unfold gameOver, isDraw. rewrite Hfull by lia.
  by destruct (truthy _).
Qed.

(** The drawn game: nine accepted moves, and the game is over. *)
Lemma game_ends_within_nine_moves_witness :
  let s := run (mount zeroScores "light")
             [Play 0; Play 1; Play 2; Play 4; Play 3; Play 5; Play 7; Play 6; Play 8] in
  squares s = drawnBoard ∧ 9 ≤ 9 ∧ gameOver (squares s) = true.
Proof.
  intros s.
  assert (Hreach : Reached 9 s).
  { unfold s, run. cbn [foldl]. reach_by_moves. }
  assert (Hlen : length (squares s) = 9) by (vm_compute; reflexivity).
  destruct (game_ends_within_nine_moves 9 s Hreach Hlen) as [Hle Hover].
  split_and!; [vm_compute; reflexivity|exact Hle|by apply Hover].
Defined.

(** ** Scores *)

Lemma commit_scores_cases t :
  scores (commit t) = scores t
  ∨ (gameOver (squares t) = true
     ∧ firstConclusionLogged t = false
     ∧ firstConclusionLogged (commit t) = true
     ∧ scores (commit t)
       = recordResult (winner (calculateWinner (squares t)))
           (isDraw (squares t)) (scores t)).
Proof.
  unfold commit. case_decide; [by left|].
  unfold rememberDeps, scoreEffect.
  cbn [runCleanup squares firstConclusionLogged scores].
  destruct (gameOver (squares t)) eqn:Hgo; [|by left].
  destruct (firstConclusionLogged t) eqn:Hflag; [by left|].
  right. by split_and!.
Qed.

Lemma recordResult_adds_one squares prev :
  gameOver squares = true →
  let next := recordResult (winner (calculateWinner squares)) (isDraw squares) prev in
  total next = total prev + 1
  ∧ score_X prev ≤ score_X next
  ∧ score_O prev ≤ score_O next
  ∧ score_draws prev ≤ score_draws next.
Proof.
  intros Hover next. pose proof (recordResult_matches squares prev Hover) as Hm.
  unfold next, total.
  destruct (evaluate squares) as [|[|] l|]; [done|..]; rewrite Hm; simpl; lia.
Qed.

(** With counters below 2^53, an event either leaves the scores alone
    or adds exactly one to one counter, and it adds only when it leaves
    the game concluded and takes the flag from clear to set.  No
    counter ever goes down. *)
Theorem scores_change_only_at_a_conclusion (s : App) (e : Event) :
  exactCounters (scores s) →
  scores (dispatch s e) = scores s
  ∨ (gameOver (squares (dispatch s e)) = true
     ∧ firstConclusionLogged s = false
     ∧ firstConclusionLogged (dispatch s e) = true
     ∧ total (scores (dispatch s e)) = total (scores s) + 1
     ∧ score_X (scores s) ≤ score_X (scores (dispatch s e))
     ∧ score_O (scores s) ≤ score_O (scores (dispatch s e))
     ∧ score_draws (scores s) ≤ score_draws (scores (dispatch s e))).
Proof.
  intros _.
  assert (Hcommit : ∀ t, scores t = scores s →
            firstConclusionLogged t = firstConclusionLogged s →
            scores (commit t) = scores s
            ∨ (gameOver (squares (commit t)) = true
               ∧ firstConclusionLogged s = false
               ∧ firstConclusionLogged (commit t) = true
               ∧ total (scores (commit t)) = total (scores s) + 1
               ∧ score_X (scores s) ≤ score_X (scores (commit t))
               ∧ score_O (scores s) ≤ score_O (scores (commit t))
               ∧ score_draws (scores s) ≤ score_draws (scores (commit t)))).
  { intros t Hsc Hflag.
    destruct (commit_scores_cases t) as [Hsame|(Hover & Hclear & Hset & Hrec)].
    - left. congruence.
    - right. rewrite commit_squares, Hrec, <- Hsc.
      destruct (recordResult_adds_one (squares t) (scores t) Hover) as (? & ? & ? & ?).
      split_and!; (done || congruence). }
  destruct e as [i| | | |]; cbn [dispatch].
  - apply Hcommit; unfold handlePlay; by case_match.
  - by apply Hcommit.
  - by apply Hcommit.
  - left. unfold timeoutFires. by case_match.
  - by apply Hcommit.
Qed.

(** The move that completes the first row for X adds one to the
    total. *)
Lemma scores_change_only_at_a_conclusion_witness :
  let s := run (mount zeroScores "light") [Play 0; Play 3; Play 1; Play 4] in
  gameOver (squares (dispatch s (Play 2))) = true
  ∧ firstConclusionLogged s = false
  ∧ firstConclusionLogged (dispatch s (Play 2)) = true
  ∧ total (scores (dispatch s (Play 2))) = total (scores s) + 1
  ∧ score_X (scores s) ≤ score_X (scores (dispatch s (Play 2)))
  ∧ score_O (scores s) ≤ score_O (scores (dispatch s (Play 2)))
  ∧ score_draws (scores s) ≤ score_draws (scores (dispatch s (Play 2))).
Proof.
  intros s.
  destruct (scores_change_only_at_a_conclusion s (Play 2)) as [Hsame|Hadded].
  - repeat split; vm_compute; reflexivity.
  - exfalso. revert Hsame. vm_compute. discriminate.
  - exact Hadded.
Defined.

(** ** Theme *)

(** Whatever text the theme holds, also one that is neither "light" nor
    "dark", a toggle gives "light" or "dark": everything but "light"
    becomes "light".  From then on toggling alternates. *)
Theorem toggle_settles_on_light_or_dark (t : string) :
  (toggle t = "light" ∨ toggle t = "dark")
  ∧ (t ≠ "light" → toggle t = "light")
  ∧ toggle (toggle (toggle t)) = toggle t.
Proof.
  unfold toggle. split_and!.
  - case_decide; [by right|by left].
  - intros Hne. by rewrite decide_False.
  - destruct (decide (t = "light")) as [->|Hne]; reflexivity.
Qed.

(** ** Persistence *)

Lemma useLocalStorage_effect_cases {V} (JSON_stringify : V → Completion string)
    st key (v : V) :
  useLocalStorage_effect JSON_stringify st key v = st
  ∨ ∃ text, JSON_stringify v = Normal text ∧ writeDenied st = false
      ∧ useLocalStorage_effect JSON_stringify st key v
        = {| items := <[key := text]> (items st);
             readDenied := readDenied st;
             writeDenied := writeDenied st |}.
Proof.
  unfold useLocalStorage_effect, setItem.
  destruct (JSON_stringify v) as [text|]; simpl; [|by left].
  destruct (writeDenied st) eqn:Hw; simpl; [by left|].
  right. by exists text.
Qed.

(** A value that is set is read back by the next session, when the
    storage accepts the write and allows the read and [JSON.parse]
    undoes [JSON.stringify] on it. *)
Theorem stored_value_is_read_back {V : Type}
    (JSON_parse : string → Completion V) (JSON_stringify : V → Completion string)
    (key text : string) (v initialValue : V) (h : @Hook V) :
  readDenied (hk_storage h) = false →
  writeDenied (hk_storage h) = false →
  JSON_stringify v = Normal text →
  text ≠ EmptyString →
  JSON_parse text = Normal v →
  useLocalStorage_init JSON_parse
    (hk_storage (setValue JSON_stringify key v h)) key initialValue = v.
Proof.
  intros Hread Hwrite Hstr Htext Hparse.
  unfold setValue, useLocalStorage_effect, setItem. cbn [hk_storage].
  rewrite Hstr. simpl. rewrite Hwrite. simpl.
  unfold useLocalStorage_init, getItem. cbn [readDenied items].
  rewrite Hread. simpl. rewrite lookup_insert_eq.
  destruct text; [done|]. by rewrite Hparse.
Qed.

Lemma stored_value_is_read_back_witness :
  useLocalStorage_init (λ _, Normal "dark")
    (hk_storage (setValue (λ _ : string, Normal "dark-text") "ttt-theme" "dark"
                   {| hk_value := "light";
                      hk_storage := {| items := ∅; readDenied := false;
                                       writeDenied := false |} |}))
    "ttt-theme" "light"
  = "dark".
Proof.
  apply (stored_value_is_read_back (λ _, Normal "dark")
           (λ _ : string, Normal "dark-text") "ttt-theme" "dark-text").
  - reflexivity.
  - reflexivity.
  - reflexivity.
  - discriminate.
  - reflexivity.
Defined.

(** Setting the value kept under one key changes nothing of what is
    read under another key: scores and theme do not disturb each
    other. *)
Theorem other_keys_are_untouched {V W : Type}
    (JSON_parse : string → Completion W) (JSON_stringify : V → Completion string)
    (key key' : string) (v : V) (initialValue : W) (h : @Hook V) :
  key ≠ key' →
  useLocalStorage_init JSON_parse
    (hk_storage (setValue JSON_stringify key v h)) key' initialValue
  = useLocalStorage_init JSON_parse (hk_storage h) key' initialValue.
Proof.
  intros Hne. unfold setValue. cbn [hk_storage].
  destruct (useLocalStorage_effect_cases JSON_stringify (hk_storage h) key v)
    as [->|(text & _ & _ & ->)]; [done|].
  unfold useLocalStorage_init, getItem. cbn [readDenied items].
  by rewrite lookup_insert_ne.
Qed.

Lemma other_keys_are_untouched_witness :
  let h := {| hk_value := zeroScores;
              hk_storage := {| items := {[ "ttt-theme" := "dark-text" ]};
                               readDenied := false; writeDenied := false |} |} in
  useLocalStorage_init (λ _, Normal "dark")
    (hk_storage (setValue (λ _ : Scores, Normal "scores-text") "ttt-scores" zeroScores h))
    "ttt-theme" "light"
  = useLocalStorage_init (λ _, Normal "dark") (hk_storage h) "ttt-theme" "light".
Proof.
  intros h.
  apply (other_keys_are_untouched (λ _, Normal "dark")
           (λ _ : Scores, Normal "scores-text") "ttt-scores" "ttt-theme").
  discriminate.
Defined.

(** Rendering the hook a second time on the storage the first render
    left behind gives the same value, whether or not the storage could
    be read or written, when [JSON.parse] undoes [JSON.stringify] on
    that value. *)
Theorem reload_gives_the_same_value {V : Type}
    (JSON_parse : string → Completion V) (JSON_stringify : V → Completion string)
    (st : Storage) (key : string) (initialValue : V) :
  (∀ text,
     JSON_stringify (useLocalStorage_init JSON_parse st key initialValue) = Normal text →
     text ≠ EmptyString
     ∧ JSON_parse text = Normal (useLocalStorage_init JSON_parse st key initialValue)) →
  hk_value (useLocalStorage JSON_parse JSON_stringify
              (hk_storage (useLocalStorage JSON_parse JSON_stringify st key initialValue))
              key initialValue)
  = hk_value (useLocalStorage JSON_parse JSON_stringify st key initialValue).
Proof.
  intros Hround. unfold useLocalStorage. cbn [hk_value hk_storage].
  set (v := useLocalStorage_init JSON_parse st key initialValue) in *.
  destruct (useLocalStorage_effect_cases JSON_stringify st key v)
    as [->|(text & Hstr & Hw & ->)]; [done|].
  destruct (Hround text Hstr) as [Htext Hparse].
  unfold useLocalStorage_init at 1. unfold getItem. cbn [readDenied items].
  destruct (readDenied st) eqn:Hr; simpl.
  - unfold v, useLocalStorage_init, getItem. by rewrite Hr.
  - rewrite lookup_insert_eq. destruct text; [done|]. by rewrite Hparse.
Qed.

Lemma reload_gives_the_same_value_witness :
  let st := {| items := ∅; readDenied := false; writeDenied := false |} in
  hk_value (useLocalStorage (λ _, Normal "light") (λ _ : string, Normal "light-text")
              (hk_storage (useLocalStorage (λ _, Normal "light")
                             (λ _ : string, Normal "light-text") st "ttt-theme" "light"))
              "ttt-theme" "light")
  = hk_value (useLocalStorage (λ _, Normal "light") (λ _ : string, Normal "light-text")
                st "ttt-theme" "light").
Proof.
  intros st.
  apply (reload_gives_the_same_value (λ _, Normal "light")
           (λ _ : string, Normal "light-text") st "ttt-theme" "light").
  intros text [= <-]. split; [discriminate|reflexivity].
Defined.

(** ** Later games *)

Lemma countedOnce_result sc s :
  countedOnce sc s →
  match evaluate (squares s) with
  | InProgress => scores s = sc
  | Win X _ =>
      scores s = {| score_X := score_X sc + 1; score_O := score_O sc;
                    score_draws := score_draws sc |}
  | Win O _ =>
      scores s = {| score_X := score_X sc; score_O := score_O sc + 1;
                    score_draws := score_draws sc |}
  | Draw =>
      scores s = {| score_X := score_X sc; score_O := score_O sc;
                    score_draws := score_draws sc + 1 |}
  end.
Proof.
  intros (_ & Hgoing & Hover).
  destruct (gameOver (squares s)) eqn:Hgo.
  - pose proof (recordResult_matches _ sc Hgo) as Hm.
    rewrite (Hover eq_refl).
    destruct (evaluate (squares s)) as [|[|] l|]; done.
  - apply gameOver_evaluate in Hgo as Hev. rewrite Hev. by apply Hgoing.
Qed.

(** With counters below 2^53, a game that is started by a reset while
    the flag is clear, as it is once the timeout has fired, is counted
    like the first one: nothing is added while it goes on, and its
    conclusion adds one to the counter of its result, once, however
    often the state is read again. *)
Theorem game_started_with_clear_flag_is_counted
    (s0 : App) (es : list Event) :
  exactCounters (scores s0) →
  firstConclusionLogged s0 = false →
  Forall (λ e, e ≠ Reset) es →
  match evaluate (squares (run (dispatch s0 Reset) es)) with
  | InProgress => scores (run (dispatch s0 Reset) es) = scores s0
  | Win X _ =>
      scores (run (dispatch s0 Reset) es)
      = {| score_X := score_X (scores s0) + 1; score_O := score_O (scores s0);
           score_draws := score_draws (scores s0) |}
  | Win O _ =>
      scores (run (dispatch s0 Reset) es)
      = {| score_X := score_X (scores s0); score_O := score_O (scores s0) + 1;
           score_draws := score_draws (scores s0) |}
  | Draw =>
      scores (run (dispatch s0 Reset) es)
      = {| score_X := score_X (scores s0); score_O := score_O (scores s0);
           score_draws := score_draws (scores s0) + 1 |}
  end.
Proof.
  intros _ Hflag Hes. apply countedOnce_result.
  apply countedOnce_run; [done|].
  cbn [dispatch]. apply countedOnce_going.
  - apply commit_settled.
  - by rewrite commit_squares.
  - by rewrite commit_scores_in_progress.
  - by rewrite commit_flag_in_progress.
Qed.

Lemma game_started_with_clear_flag_is_counted_witness :
  scores (run (dispatch (run (mount zeroScores "light") (xWinMoves ++ [Timeout])) Reset)
            xWinMoves)
  = {| score_X := 2; score_O := 0; score_draws := 0 |}.
Proof.
  pose proof (game_started_with_clear_flag_is_counted
                (run (mount zeroScores "light") (xWinMoves ++ [Timeout])) xWinMoves)
    as Hcounted.
  assert (Hev : evaluate
                  (squares (run (dispatch (run (mount zeroScores "light")
                                             (xWinMoves ++ [Timeout])) Reset) xWinMoves))
                = Win X (0, 1, 2)) by (vm_compute; reflexivity).
  rewrite Hev in Hcounted. rewrite Hcounted.
  - vm_compute. reflexivity.
  - repeat split; vm_compute; reflexivity.
  - vm_compute. reflexivity.
  - unfold xWinMoves. repeat constructor; discriminate.
Defined.
